(** * Downloads cleanup engine: a shallow embedding of
      [engine/cleanup_engine.py] and the properties of its routing core.

    Modelling conventions.
    - Python [str] values are Rocq [string]s; [str.lower] acts on the
      letters [A]..[Z] and leaves every other character alone.
    - [pathlib.Path] is the POSIX flavour: a path is a root flag and a list
      of components, built from text by [Path_of] (empty and ["."]
      components are dropped).  [Path.suffix] and [Path.stem] follow the
      [name.rfind('.')] definition of CPython's pathlib.
    - The file system is a finite map from paths to the kind of entry found
      there; a symbolic link counts as the kind of what it points to.
    - [dict] objects whose iteration order matters are association lists;
      those read only through [.get] are [gmap]s.
    - Exceptions carry their message; a computation threads the run's
      [world] and either returns or raises ([M]).  What it changed before
      raising stays changed, as in Python.
    - What lies outside the program is a parameter of the engine: the
      expansion of [~] and environment variables, content sniffing, the
      calendar, and whether the operating system refuses a move. *)

From Stdlib Require Import Ascii String.
From stdpp Require Import base strings pretty list gmap sorting.

Local Open Scope string_scope.
Local Open Scope list_scope.
Local Open Scope nat_scope.

(** ** Strings *)

Module Str.

Definition lower_char (c : ascii) : ascii :=
  let n := nat_of_ascii c in
  if (65 <=? n)%nat && (n <=? 90)%nat then ascii_of_nat (n + 32) else c.

(** [s.lower()] *)
Fixpoint lower (s : string) : string :=
  match s with
  | EmptyString => EmptyString
  | String c s' => String (lower_char c) (lower s')
  end.

(** [s.startswith(t)] *)
Fixpoint startswith (s t : string) {struct t} : bool :=
  match t, s with
  | EmptyString, _ => true
  | String _ _, EmptyString => false
  | String b t', String a s' => bool_decide (a = b) && startswith s' t'
  end.

(** [t in s] *)
Fixpoint contains (s t : string) : bool :=
  startswith s t ||
  match s with
  | EmptyString => false
  | String _ s' => contains s' t
  end.

(** [s.rfind(c)], [None] for Python's [-1]. *)
Fixpoint rfind (c : ascii) (s : string) : option nat :=
  match s with
  | EmptyString => None
  | String a s' =>
      match rfind c s' with
      | Some i => Some (S i)
      | None => if decide (a = c) then Some 0 else None
      end
  end.

(** [s[:i]] and [s[i:]] *)
Fixpoint take (i : nat) (s : string) : string :=
  match i, s with
  | S i', String a s' => String a (take i' s')
  | _, _ => EmptyString
  end.

Fixpoint drop (i : nat) (s : string) : string :=
  match i, s with
  | S i', String _ s' => drop i' s'
  | _, _ => s
  end.

(** [s.lstrip(c)] for a one-character [c] *)
Fixpoint lstrip (c : ascii) (s : string) : string :=
  match s with
  | String a s' => if decide (a = c) then lstrip c s' else s
  | EmptyString => EmptyString
  end.

(** [s.split(c)] *)
Fixpoint split (c : ascii) (s : string) : list string :=
  match s with
  | EmptyString => [ EmptyString ]
  | String a s' =>
      if decide (a = c) then EmptyString :: split c s'
      else match split c s' with
           | [] => [ String a EmptyString ]
           | w :: ws => String a w :: ws
           end
  end.

(** [s.split(c, 1)[0]] *)
Fixpoint before_first (c : ascii) (s : string) : string :=
  match s with
  | EmptyString => EmptyString
  | String a s' => if decide (a = c) then EmptyString else String a (before_first c s')
  end.

(** [sep.join(l)] *)
Fixpoint join (sep : string) (l : list string) : string :=
  match l with
  | [] => EmptyString
  | [ x ] => x
  | x :: l' => x +:+ sep +:+ join sep l'
  end.

(** No occurrence of the character [c]. *)
Fixpoint free_of (c : ascii) (s : string) : bool :=
  match s with
  | EmptyString => true
  | String a s' => negb (bool_decide (a = c)) && free_of c s'
  end.

(** [str(n).rjust(width, "0")], the [%0<width>d] conversion. *)
Definition zero_pad (width n : nat) : string :=
  let s := pretty n in
  String.concat "" (replicate (width - String.length s) "0") +:+ s.

(** [s.upper()], on the letters [a]..[z]. *)
Definition upper_char (c : ascii) : ascii :=
  let n := nat_of_ascii c in
  if (97 <=? n)%nat && (n <=? 122)%nat then ascii_of_nat (n - 32) else c.

Fixpoint upper (s : string) : string :=
  match s with
  | EmptyString => EmptyString
  | String c s' => String (upper_char c) (upper s')
  end.

(** [s.ljust(width)], the [{s:<width>}] conversion of a string. *)
Definition ljust (width : nat) (s : string) : string :=
  s +:+ String.concat "" (replicate (width - String.length s) " ").

End Str.

(** ** Paths ([pathlib.PurePosixPath]) *)

Record Path := mkPath { rooted : bool; parts : list string }.

#[global] Instance Path_eq_dec : EqDecision Path.
Proof. solve_decision. Defined.

#[global] Instance Path_countable : Countable Path :=
  inj_countable' (λ p, (rooted p, parts p)) (λ rp, mkPath rp.1 rp.2)
    (λ p, match p with mkPath _ _ => eq_refl end).

(** [Path(s)]: a leading slash roots the path; empty and ["."] components
    vanish. *)
Definition Path_of (s : string) : Path :=
  mkPath (Str.startswith s "/")
         (filter (λ c, c ≠ "" ∧ c ≠ ".") (Str.split "/" s)).

(** [str(p)] *)
Definition str (p : Path) : string :=
  match parts p with
  | [] => if rooted p then "/" else "."
  | l => (if rooted p then "/" else "") +:+ Str.join "/" l
  end.

(** [p / s] *)
Definition joinpath (p : Path) (s : string) : Path :=
  let q := Path_of s in
  if rooted q then q else mkPath (rooted p) (parts p ++ parts q).

Infix "//" := joinpath (at level 40, left associativity).

(** [p.parent] *)
Definition parent (p : Path) : Path := mkPath (rooted p) (removelast (parts p)).

(** [p.name] *)
Definition name (p : Path) : string := List.last (parts p) "".

(** The index at which [p.suffix] starts: [i = name.rfind('.')] when
    [0 < i < len(name) - 1]. *)
Definition suffix_start (nm : string) : option nat :=
  match Str.rfind "." nm with
  | Some i => if (0 <? i)%nat && (i + 1 <? String.length nm)%nat then Some i else None
  | None => None
  end.

(** [p.suffix] *)
Definition suffix (p : Path) : string :=
  match suffix_start (name p) with
  | Some i => Str.drop i (name p)
  | None => ""
  end.

(** [p.stem] *)
Definition stem (p : Path) : string :=
  match suffix_start (name p) with
  | Some i => Str.take i (name p)
  | None => name p
  end.

(** ** The file system *)

Inductive kind := File | Dir.

#[global] Instance kind_eq_dec : EqDecision kind.
Proof. solve_decision. Defined.

Abbreviation filesystem := (gmap Path kind).

(** [p.exists()]; the root and the working directory are always there. *)
Definition path_exists (fs : filesystem) (p : Path) : bool :=
  bool_decide (parts p = []) || bool_decide (is_Some (fs !! p)).

(** [p.is_file()] *)
Definition is_file (fs : filesystem) (p : Path) : bool :=
  bool_decide (fs !! p = Some File).

(** [p.iterdir()]: the entries directly inside [d], in the order the
    operating system lists them (here: the order of the map). *)
Definition iterdir (fs : filesystem) (d : Path) : list Path :=
  filter (λ e, parent e = d ∧ parts e ≠ []) (map_to_list fs).*1.

(** ** Exceptions, counters and the run's state *)

Inductive exn :=
  | ValueError (msg : string)
  | RuntimeError (msg : string)
  | OSError (msg : string).

(** [str(e)] *)
Definition exn_str (e : exn) : string :=
  match e with ValueError m | RuntimeError m | OSError m => m end.

(** A keyword rule is a JSON object; only its ["target"] entry is read, and
    [rule.get("target")] is [None] when the entry is missing. *)
Record rule := mkRule { rule_get_target : option string }.

(** Python truthiness of a string and of a string-or-[None]. *)
Definition truthy (s : string) : bool := negb (bool_decide (s = "")).

Definition truthy_opt (o : option string) : bool :=
  match o with Some s => truthy s | None => false end.

(** The [counts] dictionary; its six keys are fixed. *)
Record counters := mkCounts {
  scanned : nat; keyword : nat; extension : nat;
  mime : nat; archived : nat; errors : nat }.

Definition counts0 : counters := mkCounts 0 0 0 0 0 0.

Definition incr_keyword (c : counters) : counters :=
  mkCounts (scanned c) (S (keyword c)) (extension c) (mime c) (archived c) (errors c).
Definition incr_extension (c : counters) : counters :=
  mkCounts (scanned c) (keyword c) (S (extension c)) (mime c) (archived c) (errors c).
Definition incr_mime (c : counters) : counters :=
  mkCounts (scanned c) (keyword c) (extension c) (S (mime c)) (archived c) (errors c).
Definition incr_archived (c : counters) : counters :=
  mkCounts (scanned c) (keyword c) (extension c) (mime c) (S (archived c)) (errors c).
Definition incr_errors (c : counters) : counters :=
  mkCounts (scanned c) (keyword c) (extension c) (mime c) (archived c) (S (errors c)).
Definition set_scanned (n : nat) (c : counters) : counters :=
  mkCounts n (keyword c) (extension c) (mime c) (archived c) (errors c).

(** How many of the four classification tallies a file has moved. *)
Definition classified (c : counters) : nat :=
  keyword c + extension c + mime c + archived c.

(** The third and fourth slot of a recorded tuple hold [Path] objects in a
    dry run and strings otherwise. *)
Inductive pyobj := OPath (p : Path) | OStr (s : string).

Definition obj_str (o : pyobj) : string :=
  match o with OPath p => str p | OStr s => s end.

(** One entry of [actions]: [(stage, rule, source, destination-or-message)]. *)
Record action := mkAction {
  stage : string; rule_key : option string; source : pyobj; outcome : pyobj }.

(** The local tuple [action] built by classification, before it is recorded. *)
Record plan := mkPlan {
  plan_stage : string; plan_rule : option string; plan_src : Path; plan_destination : Path }.

Definition planned (p : plan) : action :=
  mkAction (plan_stage p) (plan_rule p) (OPath (plan_src p)) (OPath (plan_destination p)).

Definition performed (p : plan) (final_destination : Path) : action :=
  mkAction (plan_stage p) (plan_rule p) (OStr (str (plan_src p))) (OStr (str final_destination)).

Definition error_action (file : Path) (e : exn) : action :=
  mkAction "error" None (OStr (str file)) (OStr (exn_str e)).

Definition is_error (a : action) : bool := bool_decide (stage a = "error").

(** A calendar date and [date.isoformat()]. *)
Record date := mkDate { year : nat; month : nat; day : nat }.

Definition isoformat (d : date) : string :=
  Str.zero_pad 4 (year d) +:+ "-" +:+ Str.zero_pad 2 (month d) +:+ "-" +:+ Str.zero_pad 2 (day d).

(** Everything a run reads and writes: the file system, the tallies, the
    recorded actions, and the number of times the calendar was read. *)
Record world := mkWorld {
  fs : filesystem; counts : counters; actions : list action; clock : nat }.

Definition with_fs (f : filesystem) (w : world) : world :=
  mkWorld f (counts w) (actions w) (clock w).
Definition with_counts (c : counters) (w : world) : world :=
  mkWorld (fs w) c (actions w) (clock w).
Definition append_action (a : action) (w : world) : world :=
  mkWorld (fs w) (counts w) (actions w ++ [a]) (clock w).
Definition tick (w : world) : world :=
  mkWorld (fs w) (counts w) (actions w) (S (clock w)).

(** ** Computations that may raise *)

Definition M (A : Type) : Type := world → world * (exn + A).

Definition ret {A} (x : A) : M A := λ w, (w, inr x).
Definition raise {A} (e : exn) : M A := λ w, (w, inl e).
Definition bind {A B} (c : M A) (k : A → M B) : M B :=
  λ w, match c w with
       | (w', inr x) => k x w'
       | (w', inl e) => (w', inl e)
       end.
Definition lift {A} (r : exn + A) : M A := λ w, (w, r).
Definition gets {A} (f : world → A) : M A := λ w, (w, inr (f w)).
Definition modify (f : world → world) : M unit := λ w, (f w, inr tt).

Notation "x <- c ;; k" := (bind c (λ x, k))
  (at level 100, c at next level, right associativity).
Notation "c ;;; k" := (bind c (λ _, k))
  (at level 100, right associativity).

(** ** The rule matchers *)

(** [match_keyword]: the first key, in the order of the map, whose lower-case
    form occurs in the lower-case file name; the key is returned as written. *)
Fixpoint match_keyword (filename : string) (keyword_map : list (string * rule))
  : option string * option string :=
  match keyword_map with
  | [] => (None, None)
  | (key, rule) :: rest =>
      let token := Str.lower key in
      if Str.contains (Str.lower filename) token
      then (Some key, rule_get_target rule)
      else match_keyword filename rest
  end.

(** [match_extension] *)
Definition match_extension (filename : string) (extension_map : gmap string string)
  : option string * option string :=
  let suffix := Str.lstrip "." (Str.lower (suffix (Path_of filename))) in
  if negb (truthy suffix) then (None, None)
  else
    let target := extension_map !! suffix in
    if truthy_opt target then (Some suffix, target) else (None, None).

(** [match_mime] *)
Definition match_mime (mime_str : string) (mime_map : gmap string string)
  : option string * option string :=
  if negb (truthy mime_str) then (None, None)
  else if truthy_opt (mime_map !! mime_str) then (Some mime_str, mime_map !! mime_str)
  else
    let prefix := Str.before_first "/" mime_str in
    if truthy_opt (mime_map !! prefix) then (Some prefix, mime_map !! prefix)
    else (None, None).

(** ** Collision-safe naming *)

(** [destination_dir / f"{stem} ({counter}){suffix}"] *)
Definition candidate (destination_dir : Path) (filename : string) (counter : nat) : Path :=
  destination_dir //
    (stem (Path_of filename) +:+ " (" +:+ pretty counter +:+ ")" +:+ suffix (Path_of filename)).

(** The [while True] loop started at [counter].  Each round tests one
    candidate; a file system with [n] entries cannot hold [n + 1] distinct
    candidates, so after [fuel] occupied candidates the next one is free and
    is what the loop returns (see [probe_least_free]). *)
Fixpoint probe (f : filesystem) (destination_dir : Path) (filename : string)
    (fuel counter : nat) : Path :=
  let candidate := candidate destination_dir filename counter in
  match fuel with
  | 0 => candidate
  | S fuel' =>
      if negb (path_exists f candidate) then candidate
      else probe f destination_dir filename fuel' (S counter)
  end.

(** [make_collision_safe_target] *)
Definition make_collision_safe_target (f : filesystem) (destination_dir : Path)
    (filename : string) : Path :=
  let destination := destination_dir // filename in
  if negb (path_exists f destination) then destination
  else probe f destination_dir filename (size f) 1.

(** ** Directory creation and moving *)

(** [p] and its ancestors other than the root, outermost first. *)
Definition lineage (p : Path) : list Path :=
  (λ n, mkPath (rooted p) (take n (parts p))) <$> seq 1 (length (parts p)).

(** One [os.mkdir] of [Path.mkdir(parents=True, exist_ok=True)]: a directory
    that is there is kept, a file in the way is an error. *)
Definition mkdir_step (acc : filesystem * option exn) (q : Path) : filesystem * option exn :=
  match acc with
  | (f, Some e) => (f, Some e)
  | (f, None) =>
      match f !! q with
      | Some Dir => (f, None)
      | Some File => (f, Some (OSError ("[Errno 17] File exists: '" +:+ str q +:+ "'")))
      | None => (<[q := Dir]> f, None)
      end
  end.

(** [p.mkdir(parents=True, exist_ok=True)] *)
Definition mkdir (p : Path) : M unit := λ w,
  match foldl mkdir_step (fs w, None) (lineage p) with
  | (f, Some e) => (with_fs f w, inl e)
  | (f, None) => (with_fs f w, inr tt)
  end.

Definition name_le (a b : Path) : Prop :=
  String.le (Str.lower (name a)) (Str.lower (name b)).

#[global] Instance name_le_dec : RelDecision name_le.
Proof. intros a b. unfold name_le. apply _. Defined.

(** [discover_files]: plain, non-hidden files directly inside the source
    directory, sorted by lower-case name.  Listing something that is not a
    directory raises. *)
Definition discover_files (f : filesystem) (downloads_path : Path) : exn + list Path :=
  if negb (path_exists f downloads_path) then inr []
  else if is_file f downloads_path
  then inl (OSError ("[Errno 20] Not a directory: '" +:+ str downloads_path +:+ "'"))
  else inr (merge_sort name_le
              (filter (λ e, negb (Str.startswith (name e) ".") && is_file f e)
                      (iterdir f downloads_path))).

(** ** The engine *)

Record config := mkConfig {
  paths_downloads : string;
  paths_archive_base : string;
  routing_keyword_map : list (string * rule);
  routing_extension_map : gmap string string;
  routing_mime_map : gmap string string }.

Definition forbidden_patterns : list string := ["$("; "`"; ";"; "|"; "&"].

Definition newline : string := String (ascii_of_nat 10) "".

(** The four ways a file can be routed. *)
Inductive category := Keyword | Extension | Mime | Archive.

#[global] Instance category_eq_dec : EqDecision category.
Proof. solve_decision. Defined.

Definition tag (c : category) : string :=
  match c with
  | Keyword => "keyword" | Extension => "extension" | Mime => "mime" | Archive => "archive"
  end.

Definition tally_of (c : category) : counters → counters :=
  match c with
  | Keyword => incr_keyword | Extension => incr_extension
  | Mime => incr_mime | Archive => incr_archived
  end.

Module Engine.

Section Surroundings.

(** What the engine asks of its surroundings. *)

(** [os.path.expandvars(os.path.expanduser(s))] *)
Variable expandvars_expanduser : string → string.

(** [detect_mime]: content sniffing with the extension table as fallback;
    it never raises and answers [""] when it knows nothing. *)
Variable detect_mime : Path → string.

(** [datetime.date.today()] at the n-th reading of the calendar. *)
Variable date_today : nat → date.

(** The message of the error with which the operating system refuses a
    move that [os.replace] and then [shutil.move] both fail to perform. *)
Variable move_refused : Path → Path → option string.

(** [expand_path]; [None] stands for a value that is not a string. *)
Definition expand_path (raw_path : option string) : exn + Path :=
  match raw_path with
  | None => inl (ValueError "Invalid path type (expected string): None")
  | Some raw =>
      if existsb (λ passed_path, Str.contains raw passed_path) forbidden_patterns
      then inl (ValueError ("Forbidden shell-like expression detected in path: " +:+ raw
                              +:+ newline +:+ "Use only '~' or '$HOME' for dynamic user resolution."))
      else inr (Path_of (expandvars_expanduser raw))
  end.

(** [do_move]: create the parent, then move.  The source must be there;
    the destination handed over by the engine never is. *)
Definition do_move (src destination : Path) : M Path :=
  mkdir (parent destination) ;;;
  f <- gets fs ;;
  match f !! src with
  | None => raise (OSError ("[Errno 2] No such file or directory: '" +:+ str src +:+ "'"))
  | Some k =>
      match move_refused src destination with
      | Some msg => raise (OSError msg)
      | None =>
          modify (with_fs (<[destination := k]> (delete src f))) ;;;
          ret destination
      end
  end.

Section PerFile.

(** The locals of [process_run] that the loop body reads. *)
Variable archive_base : Path.
Variable keyword_map : list (string * rule).
Variable extension_map mime_map : gmap string string.
Variable dry_run : bool.

Definition collision_safe (destination_dir : Path) (filename : string) : M Path :=
  f <- gets fs ;; ret (make_collision_safe_target f destination_dir filename).

Definition tally (incr : counters → counters) : M unit :=
  modify (λ w, with_counts (incr (counts w)) w).

Definition today_isoformat : M string :=
  λ w, (tick w, inr (isoformat (date_today (clock w)))).

(** Steps 1 to 4 of the loop body: the tuple [action] and its tally. *)
Definition classify (file : Path) : M plan :=
  let filename := name file in
  (* 1) keyword *)
  let '(keyword_key, keyword_target) := match_keyword filename keyword_map in
  if truthy_opt keyword_key then
    destination_dir <- lift (expand_path keyword_target) ;;
    destination <- collision_safe destination_dir filename ;;
    tally incr_keyword ;;;
    ret (mkPlan "keyword" keyword_key file destination)
  else
  (* 2) extension *)
  let '(extension, extension_target) := match_extension filename extension_map in
  if truthy_opt extension then
    destination_dir <- lift (expand_path extension_target) ;;
    destination <- collision_safe destination_dir filename ;;
    tally incr_extension ;;;
    ret (mkPlan "extension" extension file destination)
  else
  (* 3) mime *)
  let mime_magic := detect_mime file in
  let '(mime_match, mime_target) := match_mime mime_magic mime_map in
  if truthy_opt mime_match then
    destination_dir <- lift (expand_path mime_target) ;;
    destination <- collision_safe destination_dir filename ;;
    tally incr_mime ;;;
    ret (mkPlan "mime" mime_match file destination)
  else
  (* 4) archive fallback *)
  today <- today_isoformat ;;
  let archive_dir := archive_base // today in
  destination <- collision_safe archive_dir filename ;;
  tally incr_archived ;;;
  ret (mkPlan "archive" (Some "archive_fallback") file destination).

(** "Execute or plan". *)
Definition execute_or_plan (action : plan) : M unit :=
  if dry_run then modify (append_action (planned action))
  else
    let destination_parent := parent (plan_destination action) in
    f <- gets fs ;;
    (if negb (path_exists f destination_parent) then
       if Str.startswith (str destination_parent) (str archive_base)
       then mkdir destination_parent
       else raise (RuntimeError ("Destination parent does not exist for non-archive target: "
                                   +:+ str destination_parent))
     else ret tt) ;;;
    final_destination <- do_move (plan_src action) (plan_destination action) ;;
    modify (append_action (performed action final_destination)).

(** The [try] block of the loop body. *)
Definition process_file (file : Path) : M unit :=
  action <- classify file ;; execute_or_plan action.

(** The [except Exception] handler. *)
Definition on_exception (file : Path) (e : exn) (w : world) : world :=
  append_action (error_action file e) (with_counts (incr_errors (counts w)) w).

(** One round of the loop. *)
Definition process_entry (file : Path) (w : world) : world :=
  match process_file file w with
  | (w', inr _) => w'
  | (w', inl e) => on_exception file e w'
  end.

(** [for file in files: ...] *)
Fixpoint process_files (files : list Path) (w : world) : world :=
  match files with
  | [] => w
  | file :: rest => process_files rest (process_entry file w)
  end.

End PerFile.

(** [process_run], started on the file system [f0] with the calendar at
    its [t0]-th reading.  The result's [counts] and [actions] are the
    summary; its [fs] is the file system the run leaves behind.  An
    exception raised outside the loop ends the run. *)
Definition process_run (cfg : config) (dry_run : bool) (f0 : filesystem) (t0 : nat)
  : exn + world :=
  match expand_path (Some (paths_downloads cfg)) with
  | inl e => inl e
  | inr downloads =>
      match expand_path (Some (paths_archive_base cfg)) with
      | inl e => inl e
      | inr archive_base =>
          match discover_files f0 downloads with
          | inl e => inl e
          | inr files =>
              inr (process_files archive_base (routing_keyword_map cfg)
                     (routing_extension_map cfg) (routing_mime_map cfg) dry_run files
                     (mkWorld f0 (set_scanned (length files) counts0) [] t0))
          end
      end
  end.

End Surroundings.

(** The category the fixed precedence picks: the first of the keyword,
    extension and content-type matchers that reports a key the engine
    accepts, the archive otherwise. *)
Definition category_of (detect_mime : Path → string)
    (keyword_map : list (string * rule)) (extension_map mime_map : gmap string string)
    (file : Path) : category :=
  if truthy_opt (match_keyword (name file) keyword_map).1 then Keyword
  else if truthy_opt (match_extension (name file) extension_map).1 then Extension
  else if truthy_opt (match_mime (detect_mime file) mime_map).1 then Mime
  else Archive.

(** The key and the configured target of the rule the precedence picks;
    the archive has the fixed key ["archive_fallback"] and no target. *)
Definition matched_rule (detect_mime : Path → string)
    (keyword_map : list (string * rule)) (extension_map mime_map : gmap string string)
    (file : Path) : option string * option string :=
  match category_of detect_mime keyword_map extension_map mime_map file with
  | Keyword => match_keyword (name file) keyword_map
  | Extension => match_extension (name file) extension_map
  | Mime => match_mime (detect_mime file) mime_map
  | Archive => (Some "archive_fallback", None)
  end.

End Engine.

Import Engine.

(** ** Notions used to state the properties *)

(** [t] occurs somewhere in [s]. *)
Definition occurs (t s : string) : Prop := ∃ pre post, s = pre +:+ t +:+ post.

(** The keyword matcher in the words of its description: the first pair, in
    map order, whose lower-cased key is contained in the lower-cased name. *)
Definition first_containing (filename : string) (keyword_map : list (string * rule))
  : option string * option string :=
  match List.find (λ kr, Str.contains (Str.lower filename) (Str.lower kr.1)) keyword_map with
  | Some (key, rule) => (Some key, rule_get_target rule)
  | None => (None, None)
  end.

(** [p] lies in the directory tree rooted at [root]. *)
Definition lives_under (p root : Path) : Prop :=
  rooted p = rooted root ∧ parts root `prefix_of` parts p.

(** The decision recorded for [file] when it is routed as [c] (or fails). *)
Definition decision_of (c : category) (file : Path) (a : action) : Prop :=
  obj_str (source a) = str file ∧ (stage a = tag c ∨ stage a = "error").

(** Three readings that the code does not bear out, kept to be refuted. *)

(** "A suffix that is a key of the extension map is an extension match." *)
Definition present_suffix_matches (filename : string) (extension_map : gmap string string) : Prop :=
  let sfx := Str.lstrip "." (Str.lower (suffix (Path_of filename))) in
  is_Some (extension_map !! sfx) → (match_extension filename extension_map).1 = Some sfx.

(** "An archive decision has no rule key." *)
Definition archive_without_rule_key (a : action) : Prop :=
  stage a = "archive" → rule_key a = None.

(** "A round moves exactly one of the four classification tallies." *)
Definition tallies_exactly_one (before after : counters) : Prop :=
  classified after = S (classified before).

(** ** A sample installation *)

Definition no_mime (_ : Path) : string := "".
Definition march_7 (_ : nat) : date := mkDate 2024 3 7.
Definition never_refused (_ _ : Path) : option string := None.

(** A run in surroundings where paths need no expansion, nothing is known
    about contents, and the operating system refuses no move. *)
Definition sample_run (cfg : config) (dry_run : bool) (f0 : filesystem) : exn + world :=
  process_run id no_mime march_7 never_refused cfg dry_run f0 0.

Definition sample_fs : filesystem :=
  list_to_map [(Path_of "/dl", Dir); (Path_of "/dl/inv.txt", File);
               (Path_of "/data", Dir); (Path_of "/data/archive", Dir)].

Definition sample_world : world := mkWorld sample_fs counts0 [] 0.

(** No rules at all. *)
Definition cfg_plain : config := mkConfig "/dl" "/data/archive" [] ∅ ∅.

(** A keyword rule whose target is a sibling of the archive root. *)
Definition cfg_sibling : config :=
  mkConfig "/dl" "/data/archive" [("inv", mkRule (Some "/data/archive_old"))] ∅ ∅.

(** A keyword rule without target. *)
Definition cfg_no_target : config :=
  mkConfig "/dl" "/data/archive" [("inv", mkRule None)] ∅ ∅.

(** An extension rule with an empty target, and one with a proper target. *)
Definition cfg_empty_target : config :=
  mkConfig "/dl" "/data/archive" [] {["txt" := ""]} ∅.
Definition cfg_documents : config :=
  mkConfig "/dl" "/data/archive" [] {["txt" := "/data"]} ∅.

(** An empty keyword in front of a proper one. *)
Definition cfg_empty_keyword : config :=
  mkConfig "/dl" "/data/archive" [("", mkRule (Some "/data")); ("inv", mkRule (Some "/data"))] ∅ ∅.

(** A folder in which [report.txt] and [report (1).txt] are taken. *)
Definition reports_fs : filesystem :=
  list_to_map [(Path_of "/dir", Dir); (Path_of "/dir/report.txt", File);
               (Path_of "/dir/report (1).txt", File)].

(** ** The command-line layer *)

(** [ensure_dir] *)
Definition ensure_dir (path : Path) : M unit := mkdir path.

(** The configuration as [json.loads] hands it over: every object is the
    list of its items in the order of the file.  [cfg_paths] is [None] when
    the ["paths"] key is missing; a missing map is an empty one. *)
Record raw_config := mkRaw {
  cfg_paths : option (list (string * string));
  cfg_keyword_map : list (string * rule);
  cfg_extension_map : list (string * string);
  cfg_mime_map : list (string * string) }.

(** [d.get(key)] on the items of a dictionary. *)
Fixpoint items_get {A} (key : string) (items : list (string * A)) : option A :=
  match items with
  | [] => None
  | (k, v) :: rest => if decide (k = key) then Some v else items_get key rest
  end.

(** What escapes to the top level: an exception of the engine, or a
    [NameError] or [KeyError] of the glue code. *)
Inductive uncaught :=
  | Uncaught (e : exn)
  | NameError (msg : string)
  | KeyError (key : string).

(** How a command-line function ends: it returns, it calls [sys.exit], or an
    exception escapes. *)
Inductive ending := Returned | Exited (code : nat) | Failed (u : uncaught).

(** [summarize_config] *)
Definition summarize_config (raw : raw_config) : nat * nat * nat :=
  (length (cfg_keyword_map raw), length (cfg_extension_map raw), length (cfg_mime_map raw)).

(** The six tally lines of [pretty_print_plan]. *)
Definition count_lines (c : counters) : list string :=
  [ "Total files scanned: " +:+ pretty (scanned c);
    "Matched by keyword: " +:+ pretty (keyword c);
    "Matched by extension: " +:+ pretty (extension c);
    "Matched by mime: " +:+ pretty (mime c);
    "Archived fallback: " +:+ pretty (archived c);
    "Errors: " +:+ pretty (errors c) ].

(** [Path(src).name] for a slot that holds a path or a string. *)
Definition obj_name (o : pyobj) : string :=
  match o with OPath p => name p | OStr s => name (Path_of s) end.

(** One round of the printing loop.  The error branch reads the variable
    [a], which nothing ever assigns. *)
Definition action_line (a : action) : uncaught + string :=
  if bool_decide (stage a = "error") then inl (NameError "name 'a' is not defined")
  else inr ("[" +:+ Str.ljust 7 (Str.upper (stage a)) +:+ "] " +:+ obj_name (source a)
              +:+ " -> " +:+ obj_str (outcome a)
              +:+ " (rule: " +:+ default "None" (rule_key a) +:+ ")").

Fixpoint print_actions (actions : list action) (out : list string)
  : list string * option uncaught :=
  match actions with
  | [] => (out, None)
  | a :: rest =>
      match action_line a with
      | inl u => (out, Some u)
      | inr line => print_actions rest (out ++ [line])
      end
  end.

(** [pretty_print_plan]: the lines printed, and the exception that ended
    the printing if one did.  The summary is the [counts] and [actions] of
    the world a run returns. *)
Definition pretty_print_plan (summary : world) (dry_run : bool)
  : list string * option uncaught :=
  print_actions (actions summary)
    (count_lines (counts summary)
       ++ [""; if dry_run then "Planned actions (dry-run):" else "Performed actions:"]).

(** What a command leaves behind. *)
Record transcript := mkTranscript {
  stdout : list string; stderr : list string; outcome_of : ending; disk : filesystem }.

Section CommandLine.

Variable expandvars_expanduser : string → string.
Variable detect_mime : Path → string.
Variable date_today : nat → date.
Variable move_refused : Path → Path → option string.

(** [errors.append(...)] when the resolved path is not there. *)
Definition report_missing (f : filesystem) (label : string) (resolved : Path)
    (errors : list string) : list string :=
  if negb (path_exists f resolved) then errors ++ [label +:+ str resolved] else errors.

(** The loop over [paths.*], and the loops over the extension and the mime
    targets, which differ in their labels only. *)
Fixpoint validate_strings (f : filesystem) (section wording : string)
    (items : list (string * string)) (errors : list string) : uncaught + list string :=
  match items with
  | [] => inr errors
  | (name, raw_path) :: rest =>
      match expand_path expandvars_expanduser (Some raw_path) with
      | inl e => inl (Uncaught e)
      | inr resolved =>
          validate_strings f section wording rest
            (report_missing f ("[" +:+ section +:+ "." +:+ name +:+ "] " +:+ wording) resolved errors)
      end
  end.

(** The loop over the keyword rules.  The target is expanded before it is
    tested for [None], and the report for a missing target names [key],
    which is not defined. *)
Fixpoint validate_keywords (f : filesystem) (items : list (string * rule))
    (errors : list string) : uncaught + list string :=
  match items with
  | [] => inr errors
  | (keyword, rule) :: rest =>
      let target := rule_get_target rule in
      match expand_path expandvars_expanduser target with
      | inl e => inl (Uncaught e)
      | inr _ =>
          match target with
          | None => inl (NameError "name 'key' is not defined")
          | Some _ =>
              match expand_path expandvars_expanduser target with
              | inl e => inl (Uncaught e)
              | inr resolved =>
                  validate_keywords f rest
                    (report_missing f ("[keyword_map." +:+ keyword +:+ "] Missing target directory: ")
                       resolved errors)
              end
          end
      end
  end.

(** The four checks in their order. *)
Definition validation_errors (f : filesystem) (raw : raw_config) : uncaught + list string :=
  match validate_strings f "paths" "Missing directory: " (default [] (cfg_paths raw)) [] with
  | inl u => inl u
  | inr errors1 =>
      match validate_keywords f (cfg_keyword_map raw) errors1 with
      | inl u => inl u
      | inr errors2 =>
          match validate_strings f "extension_map" "Missing target directory: "
                  (cfg_extension_map raw) errors2 with
          | inl u => inl u
          | inr errors3 =>
              validate_strings f "mime_map" "Missing target directory: "
                (cfg_mime_map raw) errors3
          end
      end
  end.

(** [validate_config_paths]: what it writes to the error stream and how it
    ends. *)
Definition validate_config_paths (f : filesystem) (raw : raw_config) : list string * ending :=
  match validation_errors f raw with
  | inl u => ([], Failed u)
  | inr [] => ([], Returned)
  | inr errors =>
      ("CONFIG VALIDATION FAILED:" :: ((λ err, "  - " +:+ err) <$> errors), Exited 3)
  end.

(** [process_run] on the loaded configuration: the two path entries are
    read with [config["paths"][...]], the downloads entry first, expanded
    before the archive entry is read. *)
Definition run_loaded (raw : raw_config) (dry_run : bool) (f0 : filesystem) (t0 : nat)
  : uncaught + world :=
  match cfg_paths raw with
  | None => inl (KeyError "paths")
  | Some paths =>
      match items_get "downloads" paths with
      | None => inl (KeyError "downloads")
      | Some downloads =>
          match expand_path expandvars_expanduser (Some downloads) with
          | inl e => inl (Uncaught e)
          | inr _ =>
              match items_get "archive_base" paths with
              | None => inl (KeyError "archive_base")
              | Some archive_base =>
                  match process_run expandvars_expanduser detect_mime date_today move_refused
                          (mkConfig downloads archive_base (cfg_keyword_map raw)
                             (list_to_map (cfg_extension_map raw))
                             (list_to_map (cfg_mime_map raw)))
                          dry_run f0 t0 with
                  | inl e => inl (Uncaught e)
                  | inr w => inr w
                  end
              end
          end
      end
  end.

(** [main], given what [load_config] did with the file named on the
    command line and whether [--dry-run] was passed. *)
Definition main (loaded : exn + raw_config) (dry_run : bool) (f0 : filesystem) (t0 : nat)
  : transcript :=
  match loaded with
  | inl e => mkTranscript [] ["Failed to load config: " +:+ exn_str e] (Exited 2) f0
  | inr raw =>
      match validate_config_paths f0 raw with
      | (err, Returned) =>
          let '(keywords, extensions, mimes) := summarize_config raw in
          let banner := [ "Config loaded successfully.";
                          "Keywords: " +:+ pretty keywords;
                          "Extensions: " +:+ pretty extensions;
                          "MIME rules: " +:+ pretty mimes ] in
          match run_loaded raw dry_run f0 t0 with
          | inl u => mkTranscript banner err (Failed u) f0
          | inr summary =>
              match pretty_print_plan summary dry_run with
              | (out, Some u) => mkTranscript (banner ++ out) err (Failed u) (fs summary)
              | (out, None) =>
                  mkTranscript (banner ++ out) err
                    (Exited (if (0 <? errors (counts summary))%nat then 4 else 0))
                    (fs summary)
              end
          end
      | (err, stopped) => mkTranscript [] err stopped f0
      end
  end.

End CommandLine.

(** A text that is the name of one directory entry: no slash in it, not
    empty, not the dot. *)
Definition is_component (s : string) : Prop :=
  Str.free_of "/" s = true ∧ s ≠ "" ∧ s ≠ ".".

(** A configured text resolves when it expands to a path that is there. *)
Definition resolves (expandvars_expanduser : string → string) (f : filesystem)
    (raw : option string) : Prop :=
  ∃ p, expand_path expandvars_expanduser raw = inr p ∧ path_exists f p = true.

(** A configuration file for the sample installation, and one whose
    keyword rule has lost its target. *)
Definition raw_sample : raw_config :=
  mkRaw (Some [("downloads", "/dl"); ("archive_base", "/data/archive")])
        [("inv", mkRule (Some "/data"))] [("txt", "/data")] [].

Definition raw_no_target : raw_config :=
  mkRaw (Some [("downloads", "/dl"); ("archive_base", "/data/archive")])
        [("inv", mkRule None)] [] [].

Ltac run_M := unfold bind, ret, raise, lift, gets, modify in *; simpl in *.

(** * Properties *)

(** ** Facts about strings *)

Lemma app_cons a s t : String a s +:+ t = String a (s +:+ t).
Proof. reflexivity. Qed.

Lemma app_empty_r s : s +:+ "" = s.
Proof. induction s as [|a s IH]; [done|]. by rewrite app_cons, IH. Qed.

Lemma app_assoc' s t u : (s +:+ t) +:+ u = s +:+ (t +:+ u).
Proof. induction s as [|a s IH]; [done|]. by rewrite !app_cons, IH. Qed.

Lemma length_app s t : String.length (s +:+ t) = String.length s + String.length t.
Proof. induction s as [|a s IH]; [done|]. rewrite app_cons. simpl. by rewrite IH. Qed.

Lemma app_cancel_r s1 s2 t : s1 +:+ t = s2 +:+ t → s1 = s2.
Proof.
  revert s2. induction s1 as [|a s1 IH]; intros [|b s2] H.
  - done.
  - apply (f_equal String.length) in H. rewrite !length_app in H. simpl in H. lia.
  - apply (f_equal String.length) in H. rewrite !length_app in H. simpl in H. lia.
  - rewrite !app_cons in H. injection H as -> H. f_equal. by apply IH.
Qed.

Lemma startswith_app t post : Str.startswith (t +:+ post) t = true.
Proof.
  induction t as [|b t IH]; [done|]. rewrite app_cons. simpl.
  rewrite IH. by rewrite bool_decide_eq_true_2.
Qed.

Lemma startswith_inv s t : Str.startswith s t = true → ∃ post, s = t +:+ post.
Proof.
  revert s. induction t as [|b t IH]; intros s H.
  - by exists s.
  - destruct s as [|a s]; [done|]. simpl in H.
    apply andb_true_iff in H as [Hab H]. apply bool_decide_eq_true in Hab as ->.
    destruct (IH _ H) as [post ->]. by exists post.
Qed.

Lemma contains_occurs s t : Str.contains s t = true ↔ occurs t s.
Proof.
  split.
  - induction s as [|a s IH]; simpl; intros H; apply orb_true_iff in H as [H|H].
    + destruct (startswith_inv _ _ H) as [post Hp]. by exists "", post.
    + done.
    + destruct (startswith_inv _ _ H) as [post Hp]. by exists "", post.
    + destruct (IH H) as (pre & post & ->). by exists (String a pre), post.
  - intros (pre & post & ->). induction pre as [|a pre IH].
    + change ("" +:+ t +:+ post) with (t +:+ post).
      destruct (t +:+ post) eqn:E; simpl; rewrite <- ?E, startswith_app; done.
    + rewrite app_cons. simpl. rewrite IH. by rewrite orb_true_r.
Qed.

Lemma contains_empty s : Str.contains s "" = true.
Proof. by destruct s. Qed.

Lemma lower_char_idemp c : Str.lower_char (Str.lower_char c) = Str.lower_char c.
Proof. destruct c as [[] [] [] [] [] [] [] []]; reflexivity. Qed.

Lemma lower_idemp s : Str.lower (Str.lower s) = Str.lower s.
Proof. induction s as [|a s IH]; [done|]. simpl. by rewrite lower_char_idemp, IH. Qed.

(** ** The keyword matcher *)

Lemma match_keyword_head filename key rule rest :
  occurs (Str.lower key) (Str.lower filename) →
  match_keyword filename ((key, rule) :: rest) = (Some key, rule_get_target rule).
Proof. intros H%contains_occurs. simpl. by rewrite H. Qed.

Lemma match_keyword_skip filename before rest :
  Forall (λ kr, ¬ occurs (Str.lower kr.1) (Str.lower filename)) before →
  match_keyword filename (before ++ rest) = match_keyword filename rest.
Proof.
  induction 1 as [|[key rule] before Hno _ IH]; [done|]. simpl in *.
  destruct (Str.contains _ _) eqn:E; [|done].
  by apply contains_occurs in E.
Qed.

Lemma match_keyword_find filename keyword_map :
  match_keyword filename keyword_map = first_containing filename keyword_map.
Proof.
  unfold first_containing.
  induction keyword_map as [|[key rule] rest IH]; [done|]. simpl.
  by destruct (Str.contains _ _).
Qed.

Lemma match_keyword_some filename keyword_map key target :
  match_keyword filename keyword_map = (Some key, target) →
  ∃ before rule after,
    keyword_map = before ++ (key, rule) :: after ∧ target = rule_get_target rule ∧
    Forall (λ kr, ¬ occurs (Str.lower kr.1) (Str.lower filename)) before ∧
    occurs (Str.lower key) (Str.lower filename).
Proof.
  induction keyword_map as [|[k r] rest IH]; [done|]. simpl.
  destruct (Str.contains _ _) eqn:E.
  - intros [= -> <-]. exists [], r, rest. repeat split; [constructor|by apply contains_occurs].
  - intros (before & rule & after & -> & -> & Hb & Ho)%IH.
    exists ((k, r) :: before), rule, after. repeat split; [|done].
    constructor; [|done]. simpl. intros Hk%contains_occurs. congruence.
Qed.

Lemma match_keyword_none filename keyword_map target :
  match_keyword filename keyword_map = (None, target) →
  target = None ∧ Forall (λ kr, ¬ occurs (Str.lower kr.1) (Str.lower filename)) keyword_map.
Proof.
  induction keyword_map as [|[k r] rest IH]; simpl.
  - intros [= <-]. by split.
  - destruct (Str.contains _ _) eqn:E; [done|].
    intros [-> H]%IH. split; [done|]. constructor; [|done].
    simpl. intros Hk%contains_occurs. congruence.
Qed.

(** C6. The keyword matcher compares lower-cased key and lower-cased name by
    substring containment, walking the map in insertion order: it is the
    first containing pair of the map; an entry none of whose predecessors
    is contained wins over everything behind it, so of two contained keys
    the later never wins; the answer depends on name and keys only up to
    letter case, and a contained key always yields a match; with no
    contained key there is no match. *)
Theorem keyword_first_containing_key_wins (filename : string) (keyword_map : list (string * rule)) :
  match_keyword filename keyword_map = first_containing filename keyword_map
  ∧ (∀ before key rule after,
       keyword_map = before ++ (key, rule) :: after →
       Forall (λ kr, ¬ occurs (Str.lower kr.1) (Str.lower filename)) before →
       occurs (Str.lower key) (Str.lower filename) →
       match_keyword filename keyword_map = (Some key, rule_get_target rule))
  ∧ (∀ before key1 rule1 between key2 rule2 after,
       keyword_map = before ++ (key1, rule1) :: between ++ (key2, rule2) :: after →
       occurs (Str.lower key1) (Str.lower filename) →
       occurs (Str.lower key2) (Str.lower filename) →
       ∃ key rule, (key, rule) ∈ before ++ [(key1, rule1)] ∧
         match_keyword filename keyword_map = (Some key, rule_get_target rule))
  ∧ (∀ filename', Str.lower filename' = Str.lower filename →
       match_keyword filename' keyword_map = match_keyword filename keyword_map)
  ∧ (∀ key rule, (key, rule) ∈ keyword_map →
       occurs (Str.lower key) (Str.lower filename) →
       is_Some (match_keyword filename keyword_map).1)
  ∧ (Forall (λ kr, ¬ occurs (Str.lower kr.1) (Str.lower filename)) keyword_map →
       match_keyword filename keyword_map = (None, None)).
Proof.
  split; [apply match_keyword_find|].
  split.
  { intros before key rule after -> Hb Ho.
    rewrite match_keyword_skip by done. by apply match_keyword_head. }
  split.
  { intros before key1 rule1 between key2 rule2 after -> Ho1 _.
    induction before as [|[k r] before IH].
    - exists key1, rule1. split; [by apply list_elem_of_singleton|].
      by apply match_keyword_head.
    - simpl. destruct (Str.contains _ _) eqn:E.
      + exists k, r. split; [|done]. apply elem_of_cons. by left.
      + destruct IH as (key & rule & Hin & Hm). exists key, rule.
        split; [|done]. apply elem_of_cons. by right. }
  split.
  { intros filename' Hl. induction keyword_map as [|[k r] rest IH]; [done|].
    simpl. by rewrite Hl, IH. }
  split.
  { intros key rule Hin Ho.
    induction keyword_map as [|[k r] rest IH]; [by apply elem_of_nil in Hin|].
    simpl. destruct (Str.contains _ _) eqn:E; [by eexists|].
    apply IH. apply elem_of_cons in Hin as [[= -> ->]|Hin]; [|done].
    apply contains_occurs in Ho. congruence. }
  intros Hall. induction Hall as [|[k r] rest Hno _ IH]; [done|].
  simpl in *. destruct (Str.contains _ _) eqn:E; [|done].
  by apply contains_occurs in E.
Qed.

(** ** Facts about components, suffixes and decimal numerals *)

Lemma free_of_app c s t : Str.free_of c (s +:+ t) = Str.free_of c s && Str.free_of c t.
Proof. induction s as [|a s IH]; [done|]. rewrite app_cons. simpl. rewrite IH. by rewrite andb_assoc. Qed.

Lemma free_of_take c i s : Str.free_of c s = true → Str.free_of c (Str.take i s) = true.
Proof.
  revert i. induction s as [|a s IH]; intros [|i]; simpl; try done.
  intros [Ha Hs]%andb_true_iff. rewrite Ha. simpl. by apply IH.
Qed.

Lemma free_of_drop c i s : Str.free_of c s = true → Str.free_of c (Str.drop i s) = true.
Proof.
  revert i. induction s as [|a s IH]; intros [|i]; simpl; try done.
  intros [Ha Hs]%andb_true_iff. by apply IH.
Qed.

Lemma take_drop i s : Str.take i s +:+ Str.drop i s = s.
Proof.
  revert i. induction s as [|a s IH]; intros [|i]; simpl; try done.
  by rewrite app_cons, IH.
Qed.

Lemma split_nonempty c s : Str.split c s ≠ [].
Proof. destruct s as [|a s]; simpl; [done|]. destruct (decide (a = c)); [done|]. by destruct (Str.split c s). Qed.

Lemma split_free c s : Forall (λ w, Str.free_of c w = true) (Str.split c s).
Proof.
  induction s as [|a s IH]; simpl.
  - by repeat constructor.
  - destruct (decide (a = c)) as [->|Hne].
    + by constructor.
    + destruct (Str.split c s) as [|w ws] eqn:E; [by apply split_nonempty in E|].
      inversion_clear IH as [|?? Hw Hws]. constructor; [|done].
      simpl. rewrite Hw. by rewrite bool_decide_eq_false_2.
Qed.

Lemma split_of_free c s : Str.free_of c s = true → Str.split c s = [s].
Proof.
  induction s as [|a s IH]; [done|]. simpl.
  intros [Ha Hs]%andb_true_iff. apply negb_true_iff, bool_decide_eq_false in Ha.
  rewrite decide_False by done. by rewrite IH.
Qed.

Lemma name_free s : Str.free_of "/" (name (Path_of s)) = true.
Proof.
  unfold name, Path_of. simpl.
  assert (Forall (λ w, Str.free_of "/" w = true)
            (filter (λ c, c ≠ "" ∧ c ≠ ".") (Str.split "/" s))) as H.
  { apply Forall_forall. intros w [_ Hw]%list_elem_of_filter.
    by eapply Forall_forall in Hw; [|apply split_free]. }
  induction H as [|w ws Hw _ IH]; [done|].
  destruct ws; [done|]. exact IH.
Qed.

Lemma rfind_drop c s i :
  Str.rfind c s = Some i →
  ∃ rest, Str.drop i s = String c rest ∧ Str.free_of c rest = true.
Proof.
  assert (∀ s, Str.rfind c s = None → Str.free_of c s = true) as Hnone.
  { induction s0 as [|a s0 IH]; [done|]. simpl.
    destruct (Str.rfind c s0); [done|]. destruct (decide (a = c)); [done|].
    intros _. rewrite IH by done. by rewrite bool_decide_eq_false_2. }
  revert i. induction s as [|a s IH]; [done|]. simpl. intros i.
  destruct (Str.rfind c s) as [j|] eqn:E.
  - intros [= <-]. simpl. by apply IH.
  - destruct (decide (a = c)) as [->|]; [|done].
    intros [= <-]. simpl. exists s. split; [done|]. by apply Hnone.
Qed.

(** The name is stem followed by suffix, and the suffix is empty or a dot
    followed by at least one character, none of them a dot. *)
Lemma stem_suffix p :
  name p = stem p +:+ suffix p ∧
  (suffix p = "" ∨ ∃ ext, suffix p = String "." ext ∧ ext ≠ "" ∧ Str.free_of "." ext = true).
Proof.
  unfold stem, suffix, suffix_start.
  destruct (Str.rfind "." (name p)) as [i|] eqn:E; [|by split; [rewrite app_empty_r|left]].
  destruct (_ && _) eqn:Hi; [|by split; [rewrite app_empty_r|left]].
  split; [by rewrite take_drop|]. right.
  destruct (rfind_drop _ _ _ E) as (ext & Hd & Hf). exists ext. repeat split; [done| |done].
  intros ->. apply andb_true_iff in Hi as [_ Hi%Nat.ltb_lt].
  pose proof (f_equal String.length (take_drop i (name p))) as Hl.
  rewrite length_app, Hd in Hl. simpl in Hl.
  assert (String.length (Str.take i (name p)) ≤ i)%nat; [|lia].
  clear. revert i. induction (name p) as [|a s IH]; intros [|i]; simpl; try lia.
  specialize (IH i). lia.
Qed.

Lemma stem_free s : Str.free_of "/" (stem (Path_of s)) = true.
Proof.
  unfold stem. destruct (suffix_start _); [apply free_of_take|]; apply name_free.
Qed.

Lemma suffix_free s : Str.free_of "/" (suffix (Path_of s)) = true.
Proof.
  unfold suffix. destruct (suffix_start _); [apply free_of_drop, name_free|done].
Qed.

Lemma pretty_N_go_free x s :
  Str.free_of "/" s = true → Str.free_of "/" (pretty_N_go x s) = true.
Proof.
  revert s. induction (N.lt_wf_0 x) as [x _ IH]; intros s Hs.
  assert (x = 0 ∨ 0 < x)%N as [->|?] by lia; [by rewrite pretty_N_go_0|].
  rewrite pretty_N_go_step by done. apply IH; [by apply N.div_lt|].
  simpl. rewrite Hs. unfold pretty_N_char. by repeat case_match.
Qed.

Lemma pretty_free (n : nat) : Str.free_of "/" (pretty n) = true.
Proof.
  unfold pretty, pretty_nat, pretty, pretty_N.
  case_decide; [done|]. by apply pretty_N_go_free.
Qed.

(** A text without slash that is neither empty nor ["."] is a single
    relative component. *)
Lemma Path_of_component s :
  Str.free_of "/" s = true → s ≠ "" → s ≠ "." → Path_of s = mkPath false [s].
Proof.
  intros Hf Hne Hnd. unfold Path_of. rewrite split_of_free by done.
  f_equal.
  - destruct s as [|a s]; [done|]. simpl in *.
    apply andb_true_iff in Hf as [Ha _]. apply negb_true_iff in Ha. by rewrite Ha.
  - rewrite filter_cons_True by done. done.
Qed.

(** The text [f"{stem} ({counter}){suffix}"]. *)
Lemma candidate_parts d filename n :
  candidate d filename n =
  mkPath (rooted d)
    (parts d ++ [stem (Path_of filename) +:+ " (" +:+ pretty n +:+ ")" +:+ suffix (Path_of filename)]).
Proof.
  unfold candidate, joinpath. rewrite Path_of_component; [done|..].
  - rewrite !free_of_app, stem_free, pretty_free, suffix_free. done.
  - intros H%(f_equal String.length). rewrite !length_app in H. simpl in H. lia.
  - intros H%(f_equal String.length). rewrite !length_app in H. simpl in H. lia.
Qed.

Lemma candidate_inj d filename n m :
  candidate d filename n = candidate d filename m → n = m.
Proof.
  rewrite !candidate_parts. intros [= H]. apply app_inv_head in H. injection H as H.
  apply String.app_inj, String.app_inj in H.
  rewrite <- !app_assoc' in H. apply app_cancel_r, app_cancel_r in H.
  by apply pretty_nat_inj in H.
Qed.

Lemma candidate_exists f d filename n :
  path_exists f (candidate d filename n) = bool_decide (is_Some (f !! candidate d filename n)).
Proof.
  unfold path_exists. rewrite bool_decide_eq_false_2; [done|].
  rewrite candidate_parts. simpl. by destruct (parts d).
Qed.

(** ** Collision-safe naming *)

(** A file system cannot hold more distinct occupied names than it has
    entries. *)
Lemma occupied_bound (f : filesystem) (g : nat → Path) (k : nat) :
  (∀ n m, g n = g m → n = m) →
  (∀ m, 1 ≤ m ≤ k → is_Some (f !! g m)) →
  k ≤ size f.
Proof.
  intros Hinj Hocc.
  assert (NoDup (g <$> seq 1 k)) as Hnd.
  { apply NoDup_fmap_2; [intros n m; apply Hinj|apply NoDup_seq]. }
  assert (length (g <$> seq 1 k) = k) as Hlen by (by rewrite length_fmap, length_seq).
  rewrite <- Hlen at 1. rewrite <- (size_list_to_set (C:=gset Path)) by done.
  rewrite <- (size_dom f). apply subseteq_size.
  intros p (n & -> & Hn%elem_of_seq)%elem_of_list_to_set%list_elem_of_fmap.
  apply elem_of_dom, Hocc. lia.
Qed.

(** The loop returns the least free candidate at or after [counter], as
    long as it is found within [fuel] rounds; otherwise the candidate after
    [fuel] occupied ones. *)
Lemma probe_least f d filename fuel counter :
  ∃ n, counter ≤ n ≤ counter + fuel ∧
       probe f d filename fuel counter = candidate d filename n ∧
       (∀ m, counter ≤ m < n → path_exists f (candidate d filename m) = true) ∧
       (n < counter + fuel → path_exists f (candidate d filename n) = false).
Proof.
  revert counter. induction fuel as [|fuel IH]; intros counter; simpl.
  - exists counter. repeat split; lia.
  - destruct (path_exists f (candidate d filename counter)) eqn:E; simpl.
    + destruct (IH (S counter)) as (n & Hn & Hp & Hocc & Hfree).
      exists n. repeat split; [lia|lia|done| |intros; apply Hfree; lia].
      intros m Hm. destruct (decide (m = counter)) as [->|]; [done|]. apply Hocc. lia.
    + exists counter. repeat split; [lia|lia|intros; lia|done].
Qed.

(** With one round per entry of the file system the loop always finds its
    free candidate. *)
Lemma probe_least_free f d filename :
  ∃ n, 1 ≤ n ∧
       probe f d filename (size f) 1 = candidate d filename n ∧
       (∀ m, 1 ≤ m < n → path_exists f (candidate d filename m) = true) ∧
       path_exists f (candidate d filename n) = false.
Proof.
  destruct (probe_least f d filename (size f) 1) as (n & Hn & Hp & Hocc & Hfree).
  exists n. repeat split; [lia|done|done|].
  destruct (decide (n < 1 + size f)) as [|Hfull]; [by apply Hfree|].
  destruct (path_exists f (candidate d filename n)) eqn:E; [|done].
  assert (n ≤ size f); [|lia].
  apply (occupied_bound f (candidate d filename)); [apply candidate_inj|].
  intros m Hm. destruct (decide (m = n)) as [->|].
  - rewrite candidate_exists in E. by apply bool_decide_eq_true in E.
  - assert (path_exists f (candidate d filename m) = true) as Hm' by (apply Hocc; lia).
    rewrite candidate_exists in Hm'. by apply bool_decide_eq_true in Hm'.
Qed.

(** C3. The namer returns [destination_dir / filename] itself when nothing
    is there; otherwise the first of [stem (1)ext], [stem (2)ext], ... at
    which nothing is there, every earlier one being occupied; either way
    nothing exists at the returned path.  Here [stem] and [ext] split the
    file's name, and [ext] is empty or begins with its dot. *)
Theorem namer_returns_first_free (f : filesystem) (destination_dir : Path) (filename : string) :
  let destination := make_collision_safe_target f destination_dir filename in
  path_exists f destination = false
  ∧ (path_exists f (destination_dir // filename) = false →
       destination = destination_dir // filename)
  ∧ (path_exists f (destination_dir // filename) = true →
       ∃ n, 1 ≤ n ∧
         destination =
           destination_dir // (stem (Path_of filename) +:+ " (" +:+ pretty n +:+ ")"
                                 +:+ suffix (Path_of filename)) ∧
         path_exists f destination = false ∧
         ∀ m, 1 ≤ m < n →
           path_exists f
             (destination_dir // (stem (Path_of filename) +:+ " (" +:+ pretty m +:+ ")"
                                    +:+ suffix (Path_of filename))) = true)
  ∧ name (Path_of filename) = stem (Path_of filename) +:+ suffix (Path_of filename)
  ∧ (suffix (Path_of filename) = "" ∨ Str.startswith (suffix (Path_of filename)) "." = true).
Proof.
  simpl. unfold make_collision_safe_target.
  destruct (probe_least_free f destination_dir filename) as (n & Hn & Hp & Hocc & Hfree).
  destruct (path_exists f (destination_dir // filename)) eqn:E; simpl.
  - split; [by rewrite Hp|]. split; [done|]. split.
    + intros _. exists n. rewrite Hp. by repeat split.
    + destruct (stem_suffix (Path_of filename)) as [Hname [Hs|(ext & Hs & _)]].
      * by split; [|left].
      * split; [done|right]. by rewrite Hs.
  - split; [done|]. split; [done|]. split; [done|].
    destruct (stem_suffix (Path_of filename)) as [Hname [Hs|(ext & Hs & _)]].
    + by split; [|left].
    + split; [done|right]. by rewrite Hs.
Qed.

(** ** The loop body *)

Lemma mkdir_frame p w w' r :
  mkdir p w = (w', r) →
  counts w' = counts w ∧ actions w' = actions w ∧ clock w' = clock w.
Proof.
  unfold mkdir. destruct (foldl _ _ _) as [f [e|]]; by intros [= <- <-].
Qed.

Section EngineFacts.

Variable expandvars_expanduser : string → string.
Variable detect_mime : Path → string.
Variable date_today : nat → date.
Variable move_refused : Path → Path → option string.
Variable archive_base : Path.
Variable keyword_map : list (string * rule).
Variable extension_map mime_map : gmap string string.
Variable dry_run : bool.

#[local] Abbreviation expand_path := (expand_path expandvars_expanduser).
#[local] Abbreviation do_move := (do_move move_refused).
#[local] Abbreviation classify := (classify expandvars_expanduser detect_mime date_today archive_base
                        keyword_map extension_map mime_map).
#[local] Abbreviation execute_or_plan := (execute_or_plan move_refused archive_base dry_run).
#[local] Abbreviation process_file := (process_file expandvars_expanduser detect_mime date_today move_refused
                            archive_base keyword_map extension_map mime_map dry_run).
#[local] Abbreviation process_entry := (process_entry expandvars_expanduser detect_mime date_today move_refused
                             archive_base keyword_map extension_map mime_map dry_run).
#[local] Abbreviation process_files := (process_files expandvars_expanduser detect_mime date_today move_refused
                             archive_base keyword_map extension_map mime_map dry_run).
#[local] Abbreviation category_of := (category_of detect_mime keyword_map extension_map mime_map).
#[local] Abbreviation matched_rule := (matched_rule detect_mime keyword_map extension_map mime_map).

Lemma do_move_frame src destination w w' r :
  do_move src destination w = (w', r) →
  counts w' = counts w ∧ actions w' = actions w ∧ clock w' = clock w ∧
  (∀ p, r = inr p → p = destination).
Proof.
  unfold do_move. run_M.
  destruct (mkdir _ w) as [w1 [e|[]]] eqn:Hmk; apply mkdir_frame in Hmk as (Hc & Ha & Ht).
  - intros [= <- <-]. by repeat split.
  - destruct (fs w1 !! src) as [k|]; [|intros [= <- <-]; by repeat split].
    destruct (move_refused src destination); intros [= <- <-]; repeat split; try done.
    by intros p [= <-].
Qed.

(** What classification does, by the category the precedence picks: the
    archive always yields its plan; a rule yields its plan unless its
    target cannot be expanded, and then nothing has been tallied. *)
Lemma classify_run file w :
  match category_of file with
  | Archive =>
      classify file w =
        (with_counts (incr_archived (counts w)) (tick w),
         inr (mkPlan "archive" (Some "archive_fallback") file
                (make_collision_safe_target (fs w)
                   (archive_base // isoformat (date_today (clock w))) (name file))))
  | c =>
      match expand_path (matched_rule file).2 with
      | inl e => classify file w = (w, inl e)
      | inr destination_dir =>
          classify file w =
            (with_counts (tally_of c (counts w)) w,
             inr (mkPlan (tag c) (matched_rule file).1 file
                    (make_collision_safe_target (fs w) destination_dir (name file))))
      end
  end.
Proof.
  unfold matched_rule, category_of, Engine.classify.
  destruct (match_keyword (name file) keyword_map) as [kk kt]. simpl.
  destruct (truthy_opt kk).
  { run_M. unfold collision_safe, tally. run_M. by destruct (expand_path kt). }
  destruct (match_extension (name file) extension_map) as [ek et]. simpl.
  destruct (truthy_opt ek).
  { run_M. unfold collision_safe, tally. run_M. by destruct (expand_path et). }
  destruct (match_mime (detect_mime file) mime_map) as [mk mt]. simpl.
  destruct (truthy_opt mk).
  { run_M. unfold collision_safe, tally. run_M. by destruct (expand_path mt). }
  reflexivity.
Qed.

Lemma execute_or_plan_frame action w w' r :
  execute_or_plan action w = (w', r) →
  counts w' = counts w ∧ clock w' = clock w ∧
  match r with
  | inr _ =>
      actions w' = actions w ++
        [if dry_run then planned action else performed action (plan_destination action)]
  | inl _ => dry_run = false ∧ actions w' = actions w
  end.
Proof.
  unfold Engine.execute_or_plan. destruct dry_run.
  { run_M. by intros [= <- <-]. }
  unfold bind at 1 2. unfold gets at 1.
  set (guard := if negb (path_exists (fs w) (parent (plan_destination action))) then _ else _).
  assert (∀ w1 r1, guard w = (w1, r1) →
            counts w1 = counts w ∧ actions w1 = actions w ∧ clock w1 = clock w) as Hguard.
  { subst guard. intros w1 r1. destruct (negb _); [|by intros [= <- <-]].
    destruct (Str.startswith _ _); [apply mkdir_frame|by intros [= <- <-]]. }
  destruct (guard w) as [w1 [e|[]]] eqn:Hg; destruct (Hguard _ _ eq_refl) as (Hc & Ha & Ht).
  { intros [= <- <-]. by repeat split. }
  unfold bind. destruct (do_move _ _ w1) as [w2 [e|p]] eqn:Hmv;
    apply do_move_frame in Hmv as (Hc2 & Ha2 & Ht2 & Hp).
  - intros [= <- <-]. repeat split; congruence.
  - unfold modify. intros [= <- <-]. simpl. rewrite (Hp p eq_refl).
    repeat split; congruence.
Qed.

(** One round of the loop, by cases: the target of the matched rule cannot
    be expanded (nothing tallied, an error recorded); or the file is
    classified and tallied, and then either recorded as planned or
    performed, or its execution fails and an error is recorded. *)
Lemma process_entry_cases file w :
  (∃ e, category_of file ≠ Archive ∧ expand_path (matched_rule file).2 = inl e ∧
        process_file file w = (w, inl e) ∧
        process_entry file w = on_exception file e w)
  ∨ (∃ p w1,
        classify file w = (w1, inr p) ∧
        counts w1 = tally_of (category_of file) (counts w) ∧
        fs w1 = fs w ∧ actions w1 = actions w ∧
        plan_stage p = tag (category_of file) ∧ plan_rule p = (matched_rule file).1 ∧
        plan_src p = file ∧
        ((∃ w2, execute_or_plan p w1 = (w2, inr tt) ∧ process_entry file w = w2 ∧
                counts w2 = counts w1 ∧
                actions w2 = actions w1 ++
                  [if dry_run then planned p else performed p (plan_destination p)])
         ∨ (∃ w2 e, dry_run = false ∧ execute_or_plan p w1 = (w2, inl e) ∧
                    process_file file w = (w2, inl e) ∧
                    counts w2 = counts w1 ∧ actions w2 = actions w1 ∧
                    process_entry file w = on_exception file e w2))).
Proof.
  pose proof (classify_run file w) as Hc.
  unfold Engine.process_entry, Engine.process_file, bind.
  assert (∀ p w1, classify file w = (w1, inr p) →
            (∃ w2, execute_or_plan p w1 = (w2, inr tt) ∧
               (let (w', r) := execute_or_plan p w1 in
                match r with inl e => on_exception file e w' | inr _ => w' end) = w2 ∧
               counts w2 = counts w1 ∧
               actions w2 = actions w1 ++
                 [if dry_run then planned p else performed p (plan_destination p)])
            ∨ (∃ w2 e, dry_run = false ∧ execute_or_plan p w1 = (w2, inl e) ∧
                 execute_or_plan p w1 = (w2, inl e) ∧
                 counts w2 = counts w1 ∧ actions w2 = actions w1 ∧
                 (let (w', r) := execute_or_plan p w1 in
                  match r with inl e => on_exception file e w' | inr _ => w' end)
                 = on_exception file e w2)) as Hexec.
  { intros p w1 _. destruct (execute_or_plan p w1) as [w2 [e|[]]] eqn:He;
      apply execute_or_plan_frame in He as (Hcn & _ & Hact).
    - right. exists w2, e. destruct Hact. by repeat split.
    - left. exists w2. by repeat split. }
  destruct (category_of file) eqn:Hcat.
  4: { right. eexists _, _. split; [exact Hc|]. rewrite Hc.
       unfold matched_rule. rewrite Hcat. repeat split. apply (Hexec _ _ Hc). }
  all: destruct (expand_path (matched_rule file).2) as [e|d] eqn:Hx;
    [ left; exists e; rewrite Hc; by repeat split
    | right; eexists _, _; split; [exact Hc|]; rewrite Hc; repeat split;
      apply (Hexec _ _ Hc) ].
Qed.

(** Whatever holds of every round holds of the loop: an invariant of the
    world is kept, and the actions recorded are one per file, in order. *)
Lemma process_files_invariant (I : world → Prop) (P : Path → action → Prop) :
  (∀ file w, I w →
     I (process_entry file w) ∧
     ∃ a, actions (process_entry file w) = actions w ++ [a] ∧ P file a) →
  ∀ files w, I w →
    I (process_files files w) ∧
    ∃ new, actions (process_files files w) = actions w ++ new ∧ Forall2 P files new.
Proof.
  intros Hround. induction files as [|file rest IH]; intros w Hw; simpl.
  - split; [done|]. exists []. split; [by rewrite app_nil_r|constructor].
  - destruct (Hround file w Hw) as (Hw' & a & Ha & HP).
    destruct (IH _ Hw') as (Hfin & new & Hnew & Hall).
    split; [done|]. exists (a :: new). split; [|by constructor].
    rewrite Hnew, Ha. by rewrite <- app_assoc.
Qed.

(** A round records exactly one action: the plan, the performed move, or
    the error. *)
Lemma process_entry_action file w :
  ∃ a, actions (process_entry file w) = actions w ++ [a] ∧
       obj_str (source a) = str file ∧
       ((stage a = tag (category_of file) ∧ rule_key a = (matched_rule file).1)
        ∨ (∃ w' e, process_file file w = (w', inl e) ∧ a = error_action file e ∧
                   (dry_run = true → category_of file ≠ Archive))).
Proof.
  destruct (process_entry_cases file w) as
    [(e & Hcat & Hx & Hpf & ->)
    |(p & w1 & Hcl & Hc1 & Hf1 & Ha1 & Hst & Hrk & Hsrc &
        [(w2 & Hex & -> & Hc2 & Ha2)|(w2 & e & Hdry & Hex & Hpf & Hc2 & Ha2 & ->)])].
  - exists (error_action file e). simpl. split; [done|]. split; [done|].
    right. by exists w, e.
  - eexists. split; [by rewrite Ha2, Ha1|].
    destruct dry_run; simpl; rewrite Hsrc; (split; [done|left; by split]).
  - exists (error_action file e). simpl. rewrite Ha2, Ha1. split; [done|]. split; [done|].
    right. exists w2, e. repeat split; [done|]. intros ?; congruence.
Qed.

(** The tallies after a round. *)
Lemma process_entry_counts file w :
  let c := counts w in
  let c' := counts (process_entry file w) in
  c' = tally_of (category_of file) c
  ∨ (dry_run = false ∧ c' = incr_errors (tally_of (category_of file) c))
  ∨ (category_of file ≠ Archive ∧ (∃ e, expand_path (matched_rule file).2 = inl e) ∧
     c' = incr_errors c).
Proof.
  simpl.
  destruct (process_entry_cases file w) as
    [(e & Hcat & Hx & Hpf & ->)
    |(p & w1 & Hcl & Hc1 & Hf1 & Ha1 & Hst & Hrk & Hsrc &
        [(w2 & Hex & -> & Hc2 & Ha2)|(w2 & e & Hdry & Hex & Hpf & Hc2 & Ha2 & ->)])].
  - right; right. repeat split; [done|by exists e].
  - left. congruence.
  - right; left. split; [done|]. simpl. congruence.
Qed.

(** A round adds one error to the tally exactly when it records an error. *)
Lemma process_entry_errors file w :
  ∃ a, actions (process_entry file w) = actions w ++ [a] ∧
       errors (counts (process_entry file w)) =
         errors (counts w) + (if is_error a then 1 else 0).
Proof.
  assert (∀ c, errors (tally_of (category_of file) c) = errors c) as Htally.
  { intros c. by destruct (category_of file). }
  assert (∀ p : plan, plan_stage p = tag (category_of file) →
            is_error (planned p) = false ∧
            is_error (performed p (plan_destination p)) = false) as Hok.
  { intros p Hp. unfold is_error. simpl. rewrite Hp.
    by destruct (category_of file). }
  destruct (process_entry_cases file w) as
    [(e & Hcat & Hx & Hpf & ->)
    |(p & w1 & Hcl & Hc1 & Hf1 & Ha1 & Hst & Hrk & Hsrc &
        [(w2 & Hex & -> & Hc2 & Ha2)|(w2 & e & Hdry & Hex & Hpf & Hc2 & Ha2 & ->)])].
  - exists (error_action file e). simpl. split; [done|lia].
  - eexists. split; [by rewrite Ha2, Ha1|].
    rewrite Hc2, Hc1, Htally. destruct (Hok p Hst) as [H1 H2].
    destruct dry_run; rewrite ?H1, ?H2; lia.
  - exists (error_action file e). simpl. rewrite Ha2, Ha1. split; [done|].
    rewrite Hc2, Hc1, Htally. lia.
Qed.

(** Planning touches nothing on disk. *)
Lemma process_entry_dry file w :
  dry_run = true →
  fs (process_entry file w) = fs w ∧
  ∃ a, actions (process_entry file w) = actions w ++ [a] ∧
       (is_error a = true
        ∨ ∃ destination_dir,
            source a = OPath file ∧
            outcome a = OPath (make_collision_safe_target (fs w) destination_dir (name file))).
Proof.
  intros Hdry.
  pose proof (classify_run file w) as Hc.
  unfold Engine.process_entry, Engine.process_file, bind,
    Engine.execute_or_plan.
  rewrite Hdry.
  destruct (category_of file).
  4: { rewrite Hc. simpl. split; [done|]. eexists. split; [done|]. right. by eexists. }
  all: destruct (expand_path (matched_rule file).2) as [e|d]; rewrite Hc; simpl;
    (split; [done|]); eexists; (split; [done|]); [by left|right; by eexists].
Qed.

End EngineFacts.

(** ** Whole runs *)

Lemma discover_files_are_files f d files :
  discover_files f d = inr files →
  Forall (λ file, f !! file = Some File ∧ parent file = d ∧
                  Str.startswith (name file) "." = false) files.
Proof.
  unfold discover_files. destruct (negb (path_exists f d)); [by intros [= <-]|].
  destruct (is_file f d); [done|]. intros [= <-].
  apply Forall_forall. intros file Hin.
  rewrite merge_sort_Permutation in Hin.
  apply list_elem_of_filter in Hin as [Hp Hin].
  apply andb_prop_elim in Hp as [Hhid Hfile].
  unfold iterdir in Hin. apply list_elem_of_filter in Hin as [[Hpar _] _].
  unfold is_file in Hfile. apply bool_decide_unpack in Hfile.
  apply negb_prop_elim, Is_true_false in Hhid. done.
Qed.

Lemma tally_of_counts c k :
  scanned (tally_of c k) = scanned k ∧ errors (tally_of c k) = errors k ∧
  classified (tally_of c k) = S (classified k).
Proof. destruct c; unfold classified; simpl; repeat split; lia. Qed.

Section Runs.

Variable expandvars_expanduser : string → string.
Variable detect_mime : Path → string.
Variable date_today : nat → date.
Variable move_refused : Path → Path → option string.

#[local] Abbreviation expand_path := (expand_path expandvars_expanduser).
#[local] Abbreviation process_run :=
  (process_run expandvars_expanduser detect_mime date_today move_refused).
#[local] Abbreviation classify := (classify expandvars_expanduser detect_mime date_today).
#[local] Abbreviation process_file :=
  (process_file expandvars_expanduser detect_mime date_today move_refused).
#[local] Abbreviation process_entry :=
  (process_entry expandvars_expanduser detect_mime date_today move_refused).
#[local] Abbreviation process_files :=
  (process_files expandvars_expanduser detect_mime date_today move_refused).
#[local] Abbreviation category_of := (category_of detect_mime).
#[local] Abbreviation matched_rule := (matched_rule detect_mime).

Lemma process_run_inv cfg dry_run f0 t0 w :
  process_run cfg dry_run f0 t0 = inr w →
  ∃ downloads archive_base files,
    expand_path (Some (paths_downloads cfg)) = inr downloads ∧
    expand_path (Some (paths_archive_base cfg)) = inr archive_base ∧
    discover_files f0 downloads = inr files ∧
    w = process_files archive_base (routing_keyword_map cfg) (routing_extension_map cfg)
          (routing_mime_map cfg) dry_run files
          (mkWorld f0 (set_scanned (length files) counts0) [] t0).
Proof.
  unfold Engine.process_run.
  destruct (expand_path (Some (paths_downloads cfg))) as [|downloads] eqn:Hd; [done|].
  destruct (expand_path (Some (paths_archive_base cfg))) as [|archive_base] eqn:Ha; [done|].
  destruct (discover_files f0 downloads) as [|files] eqn:Hf; [done|].
  intros [= <-]. exists downloads, archive_base, files. by repeat split.
Qed.

(** C1. A run records exactly one decision for every discovered file, in
    order.  The decision carries the tag of the category picked by the
    fixed precedence (keyword, else extension, else content type, else
    archive) or is an error; a file matched by none of the three rule kinds
    is always classified as archive, without exception, and in a dry run
    its recorded decision is the archive one. *)
Theorem every_candidate_gets_one_decision
    (cfg : config) (dry_run : bool) (f0 : filesystem) (t0 : nat) (w : world) :
  process_run cfg dry_run f0 t0 = inr w →
  ∃ downloads archive_base files,
    expand_path (Some (paths_downloads cfg)) = inr downloads ∧
    expand_path (Some (paths_archive_base cfg)) = inr archive_base ∧
    discover_files f0 downloads = inr files ∧
    length (actions w) = length files ∧
    Forall2 (λ file a,
       let c := category_of (routing_keyword_map cfg) (routing_extension_map cfg)
                  (routing_mime_map cfg) file in
       decision_of c file a ∧ (c = Archive → dry_run = true → stage a = "archive"))
      files (actions w) ∧
    (∀ file w0,
       category_of (routing_keyword_map cfg) (routing_extension_map cfg)
         (routing_mime_map cfg) file = Archive →
       ∃ w1 p, classify archive_base (routing_keyword_map cfg) (routing_extension_map cfg)
                 (routing_mime_map cfg) file w0 = (w1, inr p) ∧
               plan_stage p = "archive").
Proof.
  intros (downloads & archive_base & files & Hd & Ha & Hf & ->)%process_run_inv.
  exists downloads, archive_base, files. do 3 (split; [done|]).
  set (P := λ file a,
         let c := category_of (routing_keyword_map cfg) (routing_extension_map cfg)
                    (routing_mime_map cfg) file in
         decision_of c file a ∧ (c = Archive → dry_run = true → stage a = "archive")).
  destruct (process_files_invariant expandvars_expanduser detect_mime date_today move_refused
              archive_base (routing_keyword_map cfg) (routing_extension_map cfg)
              (routing_mime_map cfg) dry_run (λ _, True) P) with
    (files := files) (w := mkWorld f0 (set_scanned (length files) counts0) [] t0)
    as (_ & new & Hnew & Hall); [|done|].
  { intros file w _. split; [done|].
    destruct (process_entry_action expandvars_expanduser detect_mime date_today move_refused
                archive_base (routing_keyword_map cfg) (routing_extension_map cfg)
                (routing_mime_map cfg) dry_run file w)
      as (a & Hact & Hsrc & [[Hst _]|(w' & e & _ & -> & Harch)]).
    - exists a. split; [done|]. split; [by split; [|left]|].
      intros Hc _. by rewrite Hst, Hc.
    - eexists. split; [done|]. split; [by split; [|right]|].
      intros Hc Hdry. by destruct (Harch Hdry). }
  simpl in Hnew. rewrite Hnew. split; [by apply Forall2_length in Hall|].
  split; [done|].
  intros file w0 Hc.
  pose proof (classify_run expandvars_expanduser detect_mime date_today archive_base
                (routing_keyword_map cfg) (routing_extension_map cfg)
                (routing_mime_map cfg) file w0) as Hrun.
  rewrite Hc in Hrun. by eexists _, _.
Qed.

Lemma process_files_errors archive_base keyword_map extension_map mime_map dry_run files w :
  ∃ new,
    actions (process_files archive_base keyword_map extension_map mime_map dry_run files w)
      = actions w ++ new ∧
    length new = length files ∧
    errors (counts (process_files archive_base keyword_map extension_map mime_map dry_run files w))
      = errors (counts w) + length (filter (λ a, stage a = "error") new).
Proof.
  revert w. induction files as [|file rest IH]; intros w; simpl.
  - exists []. by rewrite app_nil_r.
  - destruct (process_entry_errors expandvars_expanduser detect_mime date_today move_refused
                archive_base keyword_map extension_map mime_map dry_run file w)
      as (a & Ha & He).
    destruct (IH (process_entry archive_base keyword_map extension_map mime_map dry_run file w))
      as (new & Hnew & Hlen & Herr).
    exists (a :: new). rewrite Hnew, Ha, <- app_assoc. split; [done|].
    split; [by rewrite <- Hlen|]. rewrite Herr, He. unfold is_error.
    destruct (decide (stage a = "error")) as [Hs|Hs].
    + rewrite filter_cons_True, bool_decide_eq_true_2 by done. simpl. lia.
    + rewrite filter_cons_False, bool_decide_eq_false_2 by done. lia.
Qed.

(** C2. An exception raised by the body of the loop is caught by the round
    it was raised in: the round ends with one more error tallied and the
    decision [("error", None, str(file), str(e))] appended; a keyword rule
    without target makes the body raise as soon as the rule matches; the
    loop goes on with the remaining files whatever the round did; and when
    the run is over the error tally is the number of recorded decisions
    tagged as errors. *)
Theorem exceptions_become_error_decisions
    (archive_base : Path) (cfg : config) (dry_run : bool) :
  (∀ file w w' e,
     process_file archive_base (routing_keyword_map cfg) (routing_extension_map cfg)
       (routing_mime_map cfg) dry_run file w = (w', inl e) →
     process_entry archive_base (routing_keyword_map cfg) (routing_extension_map cfg)
       (routing_mime_map cfg) dry_run file w
     = mkWorld (fs w') (incr_errors (counts w'))
         (actions w' ++ [mkAction "error" None (OStr (str file)) (OStr (exn_str e))])
         (clock w'))
  ∧ (∀ file w key,
       match_keyword (name file) (routing_keyword_map cfg) = (Some key, None) →
       key ≠ "" →
       process_file archive_base (routing_keyword_map cfg) (routing_extension_map cfg)
         (routing_mime_map cfg) dry_run file w
       = (w, inl (ValueError "Invalid path type (expected string): None")))
  ∧ (∀ file rest w,
       process_files archive_base (routing_keyword_map cfg) (routing_extension_map cfg)
         (routing_mime_map cfg) dry_run (file :: rest) w
       = process_files archive_base (routing_keyword_map cfg) (routing_extension_map cfg)
           (routing_mime_map cfg) dry_run rest
           (process_entry archive_base (routing_keyword_map cfg) (routing_extension_map cfg)
              (routing_mime_map cfg) dry_run file w))
  ∧ (∀ f0 t0 w,
       process_run cfg dry_run f0 t0 = inr w →
       errors (counts w) = length (filter (λ a, stage a = "error") (actions w))).
Proof.
  split.
  { intros file w w' e H. unfold Engine.process_entry. by rewrite H. }
  split.
  { intros file w key Hm Hkey.
    unfold Engine.process_file, Engine.classify. rewrite Hm. simpl.
    unfold truthy. rewrite bool_decide_eq_false_2 by done. reflexivity. }
  split; [done|].
  intros f0 t0 w (downloads & ab & files & Hd & Ha & Hf & ->)%process_run_inv.
  destruct (process_files_errors ab (routing_keyword_map cfg) (routing_extension_map cfg)
              (routing_mime_map cfg) dry_run files
              (mkWorld f0 (set_scanned (length files) counts0) [] t0))
    as (new & Hnew & _ & Herr).
  rewrite Herr, Hnew. done.
Qed.

(** C5. A dry run leaves the file system exactly as it found it: nothing is
    created, removed or renamed, so every discovered file is still a file
    at its path; and every decision that is not an error records the
    collision-safe destination computed on that untouched file system, at
    which nothing exists. *)
Theorem dry_run_leaves_the_file_system (cfg : config) (f0 : filesystem) (t0 : nat) (w : world) :
  process_run cfg true f0 t0 = inr w →
  fs w = f0 ∧
  ∃ downloads files,
    expand_path (Some (paths_downloads cfg)) = inr downloads ∧
    discover_files f0 downloads = inr files ∧
    Forall (λ file, fs w !! file = Some File) files ∧
    Forall2 (λ file a,
       stage a = "error" ∨
       ∃ destination_dir destination,
         source a = OPath file ∧ outcome a = OPath destination ∧
         destination = make_collision_safe_target f0 destination_dir (name file) ∧
         path_exists f0 destination = false)
      files (actions w).
Proof.
  intros (downloads & ab & files & Hd & Ha & Hf & ->)%process_run_inv.
  set (P := λ (file : Path) a,
         stage a = "error" ∨
         ∃ destination_dir destination,
           source a = OPath file ∧ outcome a = OPath destination ∧
           destination = make_collision_safe_target f0 destination_dir (name file) ∧
           path_exists f0 destination = false).
  destruct (process_files_invariant expandvars_expanduser detect_mime date_today move_refused
              ab (routing_keyword_map cfg) (routing_extension_map cfg)
              (routing_mime_map cfg) true (λ w, fs w = f0) P) with
    (files := files) (w := mkWorld f0 (set_scanned (length files) counts0) [] t0)
    as (Hfs & new & Hnew & Hall); [|done|].
  { intros file w Hw.
    destruct (process_entry_dry expandvars_expanduser detect_mime date_today move_refused
                ab (routing_keyword_map cfg) (routing_extension_map cfg)
                (routing_mime_map cfg) true file w eq_refl)
      as (Hfs & a & Hact & Hcase).
    split; [congruence|]. exists a. split; [done|].
    destruct Hcase as [He|(d & Hs & Ho)].
    - left. unfold is_error in He. by apply bool_decide_eq_true in He.
    - right. exists d, (make_collision_safe_target f0 d (name file)).
      rewrite Hw in Ho. repeat split; [done|done|].
      apply (namer_returns_first_free f0 d (name file)). }
  split; [done|]. exists downloads, files. do 2 (split; [done|]).
  split; [|by rewrite Hnew].
  rewrite Hfs. eapply Forall_impl; [by apply discover_files_are_files|].
  by intros file (? & _).
Qed.

Lemma process_files_counts archive_base keyword_map extension_map mime_map dry_run files w :
  let w' := process_files archive_base keyword_map extension_map mime_map dry_run files w in
  scanned (counts w') = scanned (counts w) ∧
  classified (counts w') ≤ classified (counts w) + length files ∧
  classified (counts w) + errors (counts w) + length files
    ≤ classified (counts w') + errors (counts w').
Proof.
  revert w. induction files as [|file rest IH]; intros w; simpl; [lia|].
  specialize (IH (process_entry archive_base keyword_map extension_map mime_map dry_run file w)).
  simpl in IH. destruct IH as (Hs & Hc & He).
  pose proof (process_entry_counts expandvars_expanduser detect_mime date_today move_refused
                archive_base keyword_map extension_map mime_map dry_run file w) as Hround.
  simpl in Hround.
  pose proof (tally_of_counts (category_of keyword_map extension_map mime_map file) (counts w))
    as (Hts & Hte & Htc).
  destruct Hround as [Hr|[[_ Hr]|(_ & _ & Hr)]]; rewrite Hr in *;
    unfold classified in *; simpl in *; lia.
Qed.

(** C9, as the code has it.  A round moves at most one of the four
    classification tallies, the one of the category the precedence picks.
    It moves exactly that one when the destination could be computed, and
    the error tally besides when the move then fails; it moves none of the
    four, and only the error tally, when the target of the matched rule
    cannot be expanded.  Over a run the four tallies therefore sum to at
    most the number of files scanned, and together with the errors to at
    least that number. *)
Theorem each_file_tallied_at_most_once
    (archive_base : Path) (cfg : config) (dry_run : bool) :
  (∀ file w,
     let c := counts w in
     let c' := counts (process_entry archive_base (routing_keyword_map cfg)
                         (routing_extension_map cfg) (routing_mime_map cfg) dry_run file w) in
     let cat := category_of (routing_keyword_map cfg) (routing_extension_map cfg)
                  (routing_mime_map cfg) file in
     c' = tally_of cat c
     ∨ (dry_run = false ∧ c' = incr_errors (tally_of cat c))
     ∨ (cat ≠ Archive ∧
        (∃ e, expand_path (matched_rule (routing_keyword_map cfg) (routing_extension_map cfg)
                             (routing_mime_map cfg) file).2 = inl e) ∧
        c' = incr_errors c))
  ∧ (∀ f0 t0 w,
       process_run cfg dry_run f0 t0 = inr w →
       classified (counts w) ≤ scanned (counts w) ∧
       scanned (counts w) ≤ classified (counts w) + errors (counts w)).
Proof.
  split.
  { intros file w. apply process_entry_counts. }
  intros f0 t0 w (downloads & ab & files & Hd & Ha & Hf & ->)%process_run_inv.
  pose proof (process_files_counts ab (routing_keyword_map cfg) (routing_extension_map cfg)
                (routing_mime_map cfg) dry_run files
                (mkWorld f0 (set_scanned (length files) counts0) [] t0)) as H.
  simpl in H. unfold classified in *. simpl in H. lia.
Qed.

(** C10. The keyword matcher does return an empty key when it reaches one
    (it is contained in every name), but the engine takes an empty key for
    no match: such a file is classified as if the keyword map were empty,
    never as a keyword match, and no keyword decision of any run carries
    the empty key. *)
Theorem empty_keyword_is_never_applied (cfg : config) (dry_run : bool) :
  (∀ filename before rule after,
     Forall (λ kr, ¬ occurs (Str.lower kr.1) (Str.lower filename)) before →
     match_keyword filename (before ++ ("", rule) :: after) = (Some "", rule_get_target rule))
  ∧ (∀ file,
       (match_keyword (name file) (routing_keyword_map cfg)).1 = Some "" →
       category_of (routing_keyword_map cfg) (routing_extension_map cfg)
         (routing_mime_map cfg) file
       = category_of [] (routing_extension_map cfg) (routing_mime_map cfg) file
       ∧ category_of (routing_keyword_map cfg) (routing_extension_map cfg)
           (routing_mime_map cfg) file ≠ Keyword)
  ∧ (∀ f0 t0 w,
       process_run cfg dry_run f0 t0 = inr w →
       Forall (λ a, stage a = "keyword" → ∃ key, rule_key a = Some key ∧ key ≠ "")
         (actions w)).
Proof.
  split.
  { intros filename before rule after Hb. rewrite match_keyword_skip by done.
    apply match_keyword_head. by exists "", (Str.lower filename). }
  split.
  { intros file Hk. unfold Engine.category_of. rewrite Hk. simpl.
    split; [done|]. by repeat case_match. }
  intros f0 t0 w (downloads & ab & files & Hd & Ha & Hf & ->)%process_run_inv.
  set (Q := λ a, stage a = "keyword" → ∃ key, rule_key a = Some key ∧ key ≠ "").
  destruct (process_files_invariant expandvars_expanduser detect_mime date_today move_refused
              ab (routing_keyword_map cfg) (routing_extension_map cfg)
              (routing_mime_map cfg) dry_run (λ _, True) (λ _ a, Q a)) with
    (files := files) (w := mkWorld f0 (set_scanned (length files) counts0) [] t0)
    as (_ & new & Hnew & Hall); [|done|].
  { intros file w _. split; [done|].
    destruct (process_entry_action expandvars_expanduser detect_mime date_today move_refused
                ab (routing_keyword_map cfg) (routing_extension_map cfg)
                (routing_mime_map cfg) dry_run file w)
      as (a & Hact & Hsrc & [[Hst Hrk]|(w' & e & _ & -> & _)]).
    - exists a. split; [done|]. intros Hkw. rewrite Hkw in Hst. rewrite Hrk.
      unfold Engine.matched_rule, Engine.category_of in *.
      destruct (truthy_opt (match_keyword (name file) (routing_keyword_map cfg)).1) eqn:Ht.
      + destruct (match_keyword (name file) (routing_keyword_map cfg)).1 as [key|]; [|done].
        exists key. split; [done|]. intros ->. done.
      + by repeat case_match.
    - eexists. split; [done|]. intros Hkw. done. }
  rewrite Hnew. simpl. clear Hnew Hf.
  induction Hall as [|file a rest new HQ _ IH]; [apply Forall_nil_2|by apply Forall_cons].
Qed.

Lemma lower_char_dot a : a ≠ "."%char → Str.lower_char a ≠ "."%char.
Proof. destruct a as [[] [] [] [] [] [] [] []]; vm_compute; congruence. Qed.

Lemma lower_free_dot s : Str.free_of "." s = true → Str.free_of "." (Str.lower s) = true.
Proof.
  induction s as [|a s IH]; [done|]. simpl.
  intros [Ha Hs]%andb_true_iff. apply negb_true_iff, bool_decide_eq_false in Ha.
  rewrite IH by done. rewrite bool_decide_eq_false_2; [done|]. by apply lower_char_dot.
Qed.

Lemma lstrip_free c s : Str.free_of c s = true → Str.lstrip c s = s.
Proof.
  destruct s as [|a s]; [done|]. simpl.
  intros [Ha _]%andb_true_iff. apply negb_true_iff, bool_decide_eq_false in Ha.
  by rewrite decide_False.
Qed.

(** The text the extension matcher looks up is the lower-cased text after
    the last dot of the name. *)
Lemma lookup_suffix p :
  Str.lstrip "." (Str.lower (suffix p)) ≠ "" →
  ∃ ext, suffix p = String "." ext ∧ Str.free_of "." ext = true ∧
         Str.lstrip "." (Str.lower (suffix p)) = Str.lower ext ∧
         name p = stem p +:+ "." +:+ ext.
Proof.
  destruct (stem_suffix p) as [Hname [Hs|(ext & Hs & Hne & Hfree)]].
  - rewrite Hs. done.
  - intros _. exists ext. split; [done|]. split; [done|]. split.
    + rewrite Hs. change (Str.lower (String "." ext)) with (String "." (Str.lower ext)).
      change (Str.lstrip "." (String "." (Str.lower ext)))
        with (Str.lstrip "." (Str.lower ext)).
      by apply lstrip_free, lower_free_dot.
    + rewrite Hname at 1. by rewrite Hs.
Qed.

(** C7, as the code has it.  For a file without keyword match, the
    extension matcher looks up the lower-cased text after the last dot of
    the name; when that text is not empty and the extension map holds a
    non-empty target for it, the file is an extension match under that key
    and is routed to the collision-safe destination in the expanded
    target. *)
Theorem recognised_extension_routes
    (archive_base : Path) (keyword_map : list (string * rule))
    (extension_map mime_map : gmap string string)
    (file : Path) (w : world) (target : string) :
  let sfx := Str.lstrip "." (Str.lower (suffix (Path_of (name file)))) in
  truthy_opt (match_keyword (name file) keyword_map).1 = false →
  extension_map !! sfx = Some target →
  sfx ≠ "" →
  target ≠ "" →
  match_extension (name file) extension_map = (Some sfx, Some target)
  ∧ category_of keyword_map extension_map mime_map file = Extension
  ∧ (∃ ext, suffix (Path_of (name file)) = String "." ext ∧
            Str.free_of "." ext = true ∧ sfx = Str.lower ext ∧
            name (Path_of (name file)) = stem (Path_of (name file)) +:+ "." +:+ ext)
  ∧ (∀ destination_dir,
       expand_path (Some target) = inr destination_dir →
       classify archive_base keyword_map extension_map mime_map file w
       = (with_counts (incr_extension (counts w)) w,
          inr (mkPlan "extension" (Some sfx) file
                 (make_collision_safe_target (fs w) destination_dir (name file))))).
Proof.
  intros sfx Hkw Hlook Hsfx Htarget.
  assert (match_extension (name file) extension_map = (Some sfx, Some target)) as Hm.
  { unfold match_extension. fold sfx. rewrite Hlook. simpl.
    unfold truthy. by rewrite !bool_decide_eq_false_2. }
  assert (category_of keyword_map extension_map mime_map file = Extension) as Hcat.
  { unfold Engine.category_of. rewrite Hkw, Hm. simpl.
    unfold truthy. by rewrite bool_decide_eq_false_2. }
  split; [done|]. split; [done|]. split; [by apply lookup_suffix|].
  intros destination_dir Hx.
  pose proof (classify_run expandvars_expanduser detect_mime date_today archive_base
                keyword_map extension_map mime_map file w) as Hrun.
  rewrite Hcat in Hrun. unfold Engine.matched_rule in Hrun.
  rewrite Hcat, Hm in Hrun. cbn [fst snd] in Hrun. by rewrite Hx in Hrun.
Qed.

(** C8, as the code has it.  A file with an empty suffix and an empty
    detected content type that no keyword matches is picked for the archive;
    and a file picked for the archive is classified without exception as
    [("archive", "archive_fallback", file, destination)], where the
    destination is the collision-safe name of the file in the archive root
    joined with today's date in ISO form: nothing exists there, and it is
    the file's own name in that folder when that is free.  A dry run records
    exactly this tuple. *)
Theorem unmatched_file_goes_to_dated_archive
    (archive_base : Path) (keyword_map : list (string * rule))
    (extension_map mime_map : gmap string string) (dry_run : bool)
    (file : Path) (w : world) :
  (truthy_opt (match_keyword (name file) keyword_map).1 = false →
   suffix (Path_of (name file)) = "" →
   detect_mime file = "" →
   category_of keyword_map extension_map mime_map file = Archive)
  ∧ (category_of keyword_map extension_map mime_map file = Archive →
     let archive_dir := archive_base // isoformat (date_today (clock w)) in
     let destination := make_collision_safe_target (fs w) archive_dir (name file) in
     classify archive_base keyword_map extension_map mime_map file w
     = (with_counts (incr_archived (counts w)) (tick w),
        inr (mkPlan "archive" (Some "archive_fallback") file destination))
     ∧ path_exists (fs w) destination = false
     ∧ (path_exists (fs w) (archive_dir // name file) = false →
        destination = archive_dir // name file)
     ∧ (dry_run = true →
        process_entry archive_base keyword_map extension_map mime_map dry_run file w
        = append_action
            (mkAction "archive" (Some "archive_fallback") (OPath file) (OPath destination))
            (with_counts (incr_archived (counts w)) (tick w)))).
Proof.
  split.
  { intros Hkw Hs Hm. unfold Engine.category_of, match_extension, match_mime.
    by rewrite Hkw, Hs, Hm. }
  intros Hcat archive_dir destination.
  pose proof (classify_run expandvars_expanduser detect_mime date_today archive_base
                keyword_map extension_map mime_map file w) as Hrun.
  rewrite Hcat in Hrun. fold archive_dir destination in Hrun.
  destruct (namer_returns_first_free (fs w) archive_dir (name file)) as (Hfree & Hsame & _).
  split; [done|]. split; [done|]. split; [done|].
  intros ->. unfold Engine.process_entry, Engine.process_file, bind.
  by rewrite Hrun.
Qed.

(** In an executing run a missing parent whose text does not begin with
    the text of the archive root is refused with a [RuntimeError]. *)
Lemma missing_parent_refused archive_base action w :
  path_exists (fs w) (parent (plan_destination action)) = false →
  Str.startswith (str (parent (plan_destination action))) (str archive_base) = false →
  execute_or_plan move_refused archive_base false action w
  = (w, inl (RuntimeError ("Destination parent does not exist for non-archive target: "
                             +:+ str (parent (plan_destination action))))).
Proof.
  intros He Hs. unfold execute_or_plan, bind, gets. by rewrite He, Hs.
Qed.

(** ... and one whose text does begin so is created, whether or not it
    lies below the archive root. *)
Lemma missing_parent_created archive_base action w :
  path_exists (fs w) (parent (plan_destination action)) = false →
  Str.startswith (str (parent (plan_destination action))) (str archive_base) = true →
  execute_or_plan move_refused archive_base false action w
  = (mkdir (parent (plan_destination action)) ;;;
     final_destination <- do_move move_refused (plan_src action) (plan_destination action) ;;
     modify (append_action (performed action final_destination))) w.
Proof.
  intros He Hs. unfold execute_or_plan, bind, gets. by rewrite He, Hs.
Qed.

End Runs.

(** ** The properties at the sample installation *)

Lemma every_candidate_gets_one_decision_witness :
  ∃ w, sample_run cfg_plain true sample_fs = inr w ∧
       ∃ downloads archive_base files,
         expand_path id (Some (paths_downloads cfg_plain)) = inr downloads ∧
         expand_path id (Some (paths_archive_base cfg_plain)) = inr archive_base ∧
         discover_files sample_fs downloads = inr files ∧
         length (actions w) = length files ∧
         Forall2 (λ file a,
            let c := category_of no_mime (routing_keyword_map cfg_plain)
                       (routing_extension_map cfg_plain) (routing_mime_map cfg_plain) file in
            decision_of c file a ∧ (c = Archive → true = true → stage a = "archive"))
           files (actions w) ∧
         (∀ file w0,
            category_of no_mime (routing_keyword_map cfg_plain)
              (routing_extension_map cfg_plain) (routing_mime_map cfg_plain) file = Archive →
            ∃ w1 p, classify id no_mime march_7 archive_base (routing_keyword_map cfg_plain)
                      (routing_extension_map cfg_plain) (routing_mime_map cfg_plain) file w0
                    = (w1, inr p) ∧
                    plan_stage p = "archive").
Proof.
  eexists. split; [vm_compute; reflexivity|].
  apply (every_candidate_gets_one_decision id no_mime march_7 never_refused
           cfg_plain true sample_fs 0).
  vm_compute. reflexivity.
Defined.

Lemma exceptions_become_error_decisions_witness :
  process_file id no_mime march_7 never_refused (Path_of "/data/archive")
    (routing_keyword_map cfg_no_target) (routing_extension_map cfg_no_target)
    (routing_mime_map cfg_no_target) false (Path_of "/dl/inv.txt") sample_world
  = (sample_world, inl (ValueError "Invalid path type (expected string): None")).
Proof.
  apply (proj1 (proj2 (exceptions_become_error_decisions id no_mime march_7 never_refused
                         (Path_of "/data/archive") cfg_no_target false))
           (Path_of "/dl/inv.txt") sample_world "inv").
  - reflexivity.
  - discriminate.
Defined.

Lemma namer_returns_first_free_witness :
  path_exists reports_fs (Path_of "/dir" // "report.txt") = true ∧
  ∃ n, 1 ≤ n ∧
    make_collision_safe_target reports_fs (Path_of "/dir") "report.txt" =
      Path_of "/dir" // (stem (Path_of "report.txt") +:+ " (" +:+ pretty n +:+ ")"
                           +:+ suffix (Path_of "report.txt")) ∧
    path_exists reports_fs (make_collision_safe_target reports_fs (Path_of "/dir") "report.txt")
      = false ∧
    ∀ m, 1 ≤ m < n →
      path_exists reports_fs
        (Path_of "/dir" // (stem (Path_of "report.txt") +:+ " (" +:+ pretty m +:+ ")"
                              +:+ suffix (Path_of "report.txt"))) = true.
Proof.
  split; [vm_compute; reflexivity|].
  apply (proj1 (proj2 (proj2 (namer_returns_first_free reports_fs (Path_of "/dir") "report.txt")))).
  vm_compute. reflexivity.
Defined.

Lemma dry_run_leaves_the_file_system_witness :
  ∃ w, sample_run cfg_sibling true sample_fs = inr w ∧ fs w = sample_fs.
Proof.
  eexists. split; [vm_compute; reflexivity|].
  apply (dry_run_leaves_the_file_system id no_mime march_7 never_refused
           cfg_sibling sample_fs 0).
  vm_compute. reflexivity.
Defined.

Lemma keyword_first_containing_key_wins_witness :
  match_keyword "Final_INVOICE_Report.pdf"
    [("tax", mkRule (Some "/t")); ("Invoice", mkRule (Some "/i")); ("report", mkRule (Some "/r"))]
  = (Some "Invoice", Some "/i").
Proof.
  apply (proj1 (proj2 (keyword_first_containing_key_wins "Final_INVOICE_Report.pdf"
           [("tax", mkRule (Some "/t")); ("Invoice", mkRule (Some "/i"));
            ("report", mkRule (Some "/r"))]))
           [("tax", mkRule (Some "/t"))] "Invoice" (mkRule (Some "/i"))
           [("report", mkRule (Some "/r"))]).
  - reflexivity.
  - constructor; [|constructor]. simpl. intros H%contains_occurs. vm_compute in H. discriminate.
  - apply contains_occurs. vm_compute. reflexivity.
Defined.

Lemma recognised_extension_routes_witness :
  match_extension (name (Path_of "/dl/inv.txt")) (routing_extension_map cfg_documents)
  = (Some "txt", Some "/data")
  ∧ classify id no_mime march_7 (Path_of "/data/archive") [] (routing_extension_map cfg_documents)
      ∅ (Path_of "/dl/inv.txt") sample_world
    = (with_counts (incr_extension counts0) sample_world,
       inr (mkPlan "extension" (Some "txt") (Path_of "/dl/inv.txt") (Path_of "/data/inv.txt"))).
Proof.
  destruct (recognised_extension_routes id no_mime march_7 (Path_of "/data/archive") []
              (routing_extension_map cfg_documents) ∅ (Path_of "/dl/inv.txt") sample_world "/data")
    as (Hm & _ & _ & Hc).
  - reflexivity.
  - vm_compute. reflexivity.
  - vm_compute. discriminate.
  - discriminate.
  - split; [exact Hm|]. rewrite (Hc (Path_of "/data")); [|reflexivity].
    vm_compute. reflexivity.
Defined.

Lemma unmatched_file_goes_to_dated_archive_witness :
  classify id no_mime march_7 (Path_of "/data/archive") [] ∅ ∅ (Path_of "/dl/inv") sample_world
  = (with_counts (incr_archived counts0) (tick sample_world),
     inr (mkPlan "archive" (Some "archive_fallback") (Path_of "/dl/inv")
            (make_collision_safe_target sample_fs
               (Path_of "/data/archive" // isoformat (mkDate 2024 3 7)) "inv"))).
Proof.
  destruct (unmatched_file_goes_to_dated_archive id no_mime march_7 never_refused
              (Path_of "/data/archive") [] ∅ ∅ true (Path_of "/dl/inv") sample_world)
    as [Hpick Harchive].
  apply Harchive, Hpick; reflexivity.
Defined.

Lemma each_file_tallied_at_most_once_witness :
  ∃ w, sample_run cfg_no_target false sample_fs = inr w ∧
       classified (counts w) ≤ scanned (counts w) ∧
       scanned (counts w) ≤ classified (counts w) + errors (counts w).
Proof.
  eexists. split; [vm_compute; reflexivity|].
  apply (proj2 (each_file_tallied_at_most_once id no_mime march_7 never_refused
                  (Path_of "/data/archive") cfg_no_target false) sample_fs 0).
  vm_compute. reflexivity.
Defined.

Lemma empty_keyword_is_never_applied_witness :
  category_of no_mime (routing_keyword_map cfg_empty_keyword)
    (routing_extension_map cfg_empty_keyword) (routing_mime_map cfg_empty_keyword)
    (Path_of "/dl/inv.txt")
  ≠ Keyword.
Proof.
  apply (proj1 (proj2 (empty_keyword_is_never_applied id no_mime march_7 never_refused
                         cfg_empty_keyword false)) (Path_of "/dl/inv.txt")).
  reflexivity.
Defined.

(** ** Where the code departs from the description *)

(** C4: the code compares texts, not paths.  The keyword target
    [/data/archive_old] does not lie below the archive root [/data/archive]
    and is missing, yet its text begins with the text of the archive root:
    the executing run creates it and moves the file there, with no error. *)
Lemma sibling_of_archive_is_created :
  ¬ lives_under (Path_of "/data/archive_old") (Path_of "/data/archive") ∧
  sample_fs !! Path_of "/data/archive_old" = None ∧
  ∃ w, sample_run cfg_sibling false sample_fs = inr w ∧
       errors (counts w) = 0 ∧
       actions w = [mkAction "keyword" (Some "inv") (OStr "/dl/inv.txt")
                      (OStr "/data/archive_old/inv.txt")] ∧
       fs w !! Path_of "/data/archive_old" = Some Dir ∧
       fs w !! Path_of "/data/archive_old/inv.txt" = Some File ∧
       fs w !! Path_of "/dl/inv.txt" = None.
Proof.
  split.
  { intros [_ [k Hk]]. vm_compute in Hk. discriminate. }
  split; [vm_compute; reflexivity|].
  eexists. split; [vm_compute; reflexivity|].
  repeat split; vm_compute; reflexivity.
Qed.

(** C7: the suffix [txt] is a key of the extension map, but its target is
    the empty string, which the matcher takes for no target: the file is
    not an extension match and ends in the archive. *)
Lemma empty_target_is_no_match :
  ¬ present_suffix_matches "inv.txt" (routing_extension_map cfg_empty_target) ∧
  ∃ w, sample_run cfg_empty_target true sample_fs = inr w ∧
       stage <$> actions w = ["archive"].
Proof.
  split.
  - unfold present_suffix_matches. intros H.
    assert (is_Some (routing_extension_map cfg_empty_target
                       !! Str.lstrip "." (Str.lower (suffix (Path_of "inv.txt"))))) as Hs.
    { exists "". vm_compute. reflexivity. }
    specialize (H Hs). vm_compute in H. discriminate.
  - eexists. split; vm_compute; reflexivity.
Qed.

(** C8: the archive decision of a run carries the rule key
    ["archive_fallback"], not [None]. *)
Lemma archive_decision_has_a_rule_key :
  ∃ w a, sample_run cfg_plain true sample_fs = inr w ∧
         actions w = [a] ∧ ¬ archive_without_rule_key a.
Proof.
  eexists _, _. split; [vm_compute; reflexivity|]. split; [reflexivity|].
  unfold archive_without_rule_key. intros H.
  specialize (H eq_refl). discriminate.
Qed.

(** C9: a round whose matched keyword rule has no target moves none of the
    four classification tallies. *)
Lemma missing_target_tallies_nothing :
  ¬ tallies_exactly_one (counts sample_world)
      (counts (process_entry id no_mime march_7 never_refused (Path_of "/data/archive")
                 (routing_keyword_map cfg_no_target) (routing_extension_map cfg_no_target)
                 (routing_mime_map cfg_no_target) false (Path_of "/dl/inv.txt") sample_world)).
Proof. unfold tallies_exactly_one. vm_compute. discriminate. Qed.

(** ** The primitives at work *)

Example lower_mixed : Str.lower "InVoice_2024.PDF" = "invoice_2024.pdf".
Proof. reflexivity. Qed.

Example split_slashes : Str.split "/" "/a//b/" = [""; "a"; ""; "b"; ""].
Proof. reflexivity. Qed.

Example zero_pad_7 : Str.zero_pad 2 7 = "07".
Proof. vm_compute. reflexivity. Qed.

Example path_parse : Path_of "/home/u/./Downloads//" = mkPath true ["home"; "u"; "Downloads"].
Proof. reflexivity. Qed.

Example path_str : str (Path_of "a/b" // "c.txt") = "a/b/c.txt".
Proof. reflexivity. Qed.

Example path_suffix : suffix (Path_of "x/archive.tar.GZ") = ".GZ" ∧ stem (Path_of "x/archive.tar.GZ") = "archive.tar".
Proof. split; reflexivity. Qed.

Example path_suffix_dotfile : suffix (Path_of ".bashrc") = "" ∧ suffix (Path_of "notes.") = "".
Proof. split; reflexivity. Qed.

Example fs_tiny :
  iterdir (list_to_map [(Path_of "/d", Dir); (Path_of "/d/a", File); (Path_of "/e/b", File)]) (Path_of "/d")
  = [Path_of "/d/a"].
Proof. vm_compute. reflexivity. Qed.

Example isoformat_example : isoformat (mkDate 2024 3 7) = "2024-03-07".
Proof. vm_compute. reflexivity. Qed.

Example discover_example :
  discover_files
    (list_to_map [(Path_of "/dl", Dir); (Path_of "/dl/b.txt", File); (Path_of "/dl/A.txt", File);
                  (Path_of "/dl/.hidden", File); (Path_of "/dl/sub", Dir)])
    (Path_of "/dl")
  = inr [Path_of "/dl/A.txt"; Path_of "/dl/b.txt"].
Proof. vm_compute. reflexivity. Qed.

(** ** Creating directories *)

Lemma mkdir_fold_stuck l f e : foldl mkdir_step (f, Some e) l = (f, Some e).
Proof. induction l as [|q l IH]; [done|]. simpl. apply IH. Qed.

(** Creating directories removes nothing and changes no entry. *)
Lemma mkdir_fold_keeps l f f' o :
  foldl mkdir_step (f, None) l = (f', o) →
  ∀ q k, f !! q = Some k → f' !! q = Some k.
Proof.
  revert f. induction l as [|p l IH]; intros f; simpl.
  - by intros [= <- <-].
  - destruct (f !! p) as [[]|] eqn:Hp.
    + rewrite mkdir_fold_stuck. by intros [= <- <-].
    + apply IH.
    + intros Hf q k Hq. apply (IH _ Hf). rewrite lookup_insert_ne; [done|]. congruence.
Qed.

Lemma mkdir_fold_done l f f' :
  foldl mkdir_step (f, None) l = (f', None) →
  Forall (λ q, f' !! q = Some Dir) l ∧ Forall (λ q, f !! q ≠ Some File) l.
Proof.
  revert f. induction l as [|p l IH]; intros f; simpl; [by split|].
  destruct (f !! p) as [[]|] eqn:Hp.
  - rewrite mkdir_fold_stuck. done.
  - intros Hf. destruct (IH _ Hf) as [H1 H2]. split; constructor; try done.
    + by eapply mkdir_fold_keeps.
    + congruence.
  - intros Hf. destruct (IH _ Hf) as [H1 H2]. split; constructor; try done.
    + eapply mkdir_fold_keeps; [done|]. by rewrite lookup_insert_eq.
    + congruence.
    + eapply Forall_impl; [exact H2|]. intros q Hq Hfile. apply Hq.
      rewrite lookup_insert_ne; [done|]. congruence.
Qed.

Lemma mkdir_fold_blocked l f f' e :
  foldl mkdir_step (f, None) l = (f', Some e) →
  ∃ q, q ∈ l ∧ f !! q = Some File.
Proof.
  revert f. induction l as [|p l IH]; intros f; simpl; [done|].
  destruct (f !! p) as [[]|] eqn:Hp.
  - intros _. exists p. split; [apply elem_of_cons; by left|done].
  - intros (q & Hq & Hf)%IH. exists q. split; [apply elem_of_cons; by right|done].
  - intros (q & Hq & Hf)%IH. exists q. split; [apply elem_of_cons; by right|].
    destruct (decide (p = q)) as [->|Hne].
    + by rewrite lookup_insert_eq in Hf.
    + by rewrite lookup_insert_ne in Hf.
Qed.

Lemma mkdir_fold_again l f :
  Forall (λ q, f !! q = Some Dir) l → foldl mkdir_step (f, None) l = (f, None).
Proof.
  induction 1 as [|p l Hp _ IH]; [done|]. simpl. by rewrite Hp.
Qed.

Lemma lineage_self p : parts p ≠ [] → p ∈ lineage p.
Proof.
  intros Hp. unfold lineage. apply list_elem_of_fmap.
  exists (length (parts p)). split.
  - destruct p as [r l]. simpl. by rewrite firstn_all.
  - apply elem_of_seq. destruct (parts p); [done|]. simpl. lia.
Qed.

(** [ensure_dir], that is [mkdir(parents=True, exist_ok=True)]: it succeeds
    exactly when no file sits at the path or at one of its ancestors; then
    the path and all its ancestors are directories and calling it again
    changes nothing; in either case every entry that was there before is
    still there, unchanged. *)
Theorem ensure_dir_makes_the_chain (path : Path) (w : world) :
  let '(w', r) := ensure_dir path w in
  (∀ q k, fs w !! q = Some k → fs w' !! q = Some k)
  ∧ counts w' = counts w ∧ actions w' = actions w
  ∧ match r with
    | inr _ =>
        Forall (λ q, fs w !! q ≠ Some File) (lineage path)
        ∧ Forall (λ q, fs w' !! q = Some Dir) (lineage path)
        ∧ path_exists (fs w') path = true
        ∧ ensure_dir path w' = (w', inr tt)
    | inl _ => ∃ q, q ∈ lineage path ∧ fs w !! q = Some File
    end.
Proof.
  unfold ensure_dir, mkdir.
  destruct (foldl mkdir_step (fs w, None) (lineage path)) as [f [e|]] eqn:Hfold; simpl.
  - split; [by eapply mkdir_fold_keeps|]. do 2 (split; [done|]).
    by eapply mkdir_fold_blocked.
  - split; [by eapply mkdir_fold_keeps|]. do 2 (split; [done|]).
    destruct (mkdir_fold_done _ _ _ Hfold) as [Hdirs Hfree].
    split; [done|]. split; [done|]. split.
    + unfold path_exists. destruct (decide (parts path = [])) as [Hp|Hp].
      * by rewrite bool_decide_eq_true_2.
      * apply orb_true_iff. right. apply bool_decide_eq_true.
        eapply Forall_forall in Hdirs; [|by apply lineage_self]. by rewrite Hdirs.
    + simpl. by rewrite mkdir_fold_again.
Qed.

(** ** Moving *)

Lemma mkdir_keeps p w w' r :
  mkdir p w = (w', r) → ∀ q k, fs w !! q = Some k → fs w' !! q = Some k.
Proof.
  unfold mkdir. destruct (foldl _ _ _) as [f [e|]] eqn:Hfold;
    intros [= <- <-]; simpl; by eapply mkdir_fold_keeps.
Qed.

Lemma not_exists_lookup (f : filesystem) p : path_exists f p = false → f !! p = None.
Proof.
  unfold path_exists. intros [_ H]%orb_false_iff.
  apply bool_decide_eq_false in H. by apply eq_None_not_Some.
Qed.

(** The namer's answer is free (the fact behind C3, for use below). *)
Lemma namer_free f destination_dir filename :
  path_exists f (make_collision_safe_target f destination_dir filename) = false.
Proof.
  unfold make_collision_safe_target.
  destruct (path_exists f (destination_dir // filename)) eqn:E; simpl; [|done].
  destruct (probe_least_free f destination_dir filename) as (n & _ & -> & _ & Hfree). done.
Qed.

Section Moves.

Variable expandvars_expanduser : string → string.
Variable detect_mime : Path → string.
Variable date_today : nat → date.
Variable move_refused : Path → Path → option string.

#[local] Abbreviation do_move := (do_move move_refused).
#[local] Abbreviation process_entry :=
  (process_entry expandvars_expanduser detect_mime date_today move_refused).
#[local] Abbreviation process_files :=
  (process_files expandvars_expanduser detect_mime date_today move_refused).
#[local] Abbreviation process_run :=
  (process_run expandvars_expanduser detect_mime date_today move_refused).

Lemma do_move_cases (src destination : Path) (w : world) (k : kind) :
  fs w !! src = Some k →
  src ≠ destination →
  let '(w', r) := do_move src destination w in
  (∀ q k', q ≠ src → q ≠ destination → fs w !! q = Some k' → fs w' !! q = Some k')
  ∧ match r with
    | inr p => p = destination ∧ fs w' !! src = None ∧ fs w' !! destination = Some k
    | inl _ => ∀ q k', fs w !! q = Some k' → fs w' !! q = Some k'
    end.
Proof.
  intros Hsrc Hne. unfold Engine.do_move, bind, gets.
  destruct (mkdir (parent destination) w) as [w1 [e|[]]] eqn:Hmk;
    pose proof (mkdir_keeps _ _ _ _ Hmk) as Hkeep.
  { split; [|done]. intros q k' _ _. apply Hkeep. }
  rewrite (Hkeep _ _ Hsrc).
  destruct (move_refused src destination); unfold raise, modify, ret; simpl.
  { split; [|done]. intros q k' _ _. apply Hkeep. }
  split.
  - intros q k' Hq1 Hq2 Hq. rewrite lookup_insert_ne, lookup_delete_ne by done.
    by apply Hkeep.
  - split; [done|]. split.
    + by rewrite lookup_insert_ne, lookup_delete_eq.
    + by rewrite lookup_insert_eq.
Qed.


(** Whatever [do_move] does, entries other than source and destination
    stay. *)
Lemma do_move_keeps src destination w w' r :
  do_move src destination w = (w', r) →
  ∀ q k, q ≠ src → q ≠ destination → fs w !! q = Some k → fs w' !! q = Some k.
Proof.
  unfold Engine.do_move, bind, gets.
  destruct (mkdir (parent destination) w) as [w1 [e|[]]] eqn:Hmk;
    pose proof (mkdir_keeps _ _ _ _ Hmk) as Hkeep.
  { intros [= <- <-] q k _ _. apply Hkeep. }
  destruct (fs w1 !! src) as [k0|].
  2: { intros [= <- <-] q k _ _. apply Hkeep. }
  destruct (move_refused src destination); unfold raise, modify, ret; simpl.
  { intros [= <- <-] q k _ _. apply Hkeep. }
  intros [= <- <-] q k Hq1 Hq2 Hq. simpl.
  rewrite lookup_insert_ne, lookup_delete_ne by done. by apply Hkeep.
Qed.

Lemma execute_keeps archive_base action w w' r :
  Engine.execute_or_plan move_refused archive_base false action w = (w', r) →
  ∀ q k, q ≠ plan_src action → q ≠ plan_destination action →
         fs w !! q = Some k → fs w' !! q = Some k.
Proof.
  unfold Engine.execute_or_plan. unfold bind at 1 2. unfold gets at 1.
  set (guard := if negb (path_exists (fs w) (parent (plan_destination action))) then _ else _).
  assert (∀ w1 r1, guard w = (w1, r1) → ∀ q k, fs w !! q = Some k → fs w1 !! q = Some k)
    as Hguard.
  { subst guard. intros w1 r1. destruct (negb _); [|by intros [= <- <-]].
    destruct (Str.startswith _ _); [apply mkdir_keeps|by intros [= <- <-]]. }
  destruct (guard w) as [w1 [e|[]]] eqn:Hg; pose proof (Hguard _ _ eq_refl) as Hkeep.
  { intros [= <- <-] q k _ _. apply Hkeep. }
  unfold bind. destruct (do_move _ _ w1) as [w2 [e|p]] eqn:Hmv;
    pose proof (do_move_keeps _ _ _ _ _ Hmv) as Hkeep2.
  - intros [= <- <-] q k Hq1 Hq2 Hq. apply Hkeep2; [done..|]. by apply Hkeep.
  - unfold modify. intros [= <- <-] q k Hq1 Hq2 Hq. simpl.
    apply Hkeep2; [done..|]. by apply Hkeep.
Qed.

(** The destination planned by classification is a path where nothing is. *)
Lemma classify_destination_free archive_base keyword_map extension_map mime_map file w w1 p :
  Engine.classify expandvars_expanduser detect_mime date_today archive_base
    keyword_map extension_map mime_map file w = (w1, inr p) →
  fs w !! plan_destination p = None.
Proof.
  pose proof (classify_run expandvars_expanduser detect_mime date_today archive_base
                keyword_map extension_map mime_map file w) as Hc.
  destruct (Engine.category_of detect_mime keyword_map extension_map mime_map file).
  4: { rewrite Hc. intros [= <- <-]. simpl. apply not_exists_lookup, namer_free. }
  all: destruct (Engine.expand_path expandvars_expanduser _) as [e|d]; rewrite Hc;
    [done|]; intros [= <- <-]; simpl; apply not_exists_lookup, namer_free.
Qed.

(** A round leaves every entry but the file it handles as it was: the
    destination it moves to is always a path where nothing was. *)
Lemma process_entry_keeps archive_base keyword_map extension_map mime_map dry_run file w :
  ∀ q k, q ≠ file → fs w !! q = Some k →
    fs (process_entry archive_base keyword_map extension_map mime_map dry_run file w) !! q
    = Some k.
Proof.
  intros q k Hq Hk.
  destruct (process_entry_cases expandvars_expanduser detect_mime date_today move_refused
              archive_base keyword_map extension_map mime_map dry_run file w) as
    [(e & _ & _ & _ & ->)
    |(p & w1 & Hcl & _ & Hf1 & _ & _ & _ & Hsrc &
        [(w2 & Hex & -> & _ & _)|(w2 & e & Hdry & Hex & _ & _ & _ & ->)])].
  - done.
  - pose proof (classify_destination_free _ _ _ _ _ _ _ _ Hcl) as Hfree.
    destruct dry_run.
    + unfold Engine.execute_or_plan, modify in Hex. injection Hex as <-. simpl. congruence.
    + eapply (execute_keeps _ _ _ _ _ Hex); congruence.
  - subst dry_run. pose proof (classify_destination_free _ _ _ _ _ _ _ _ Hcl) as Hfree.
    simpl. eapply (execute_keeps _ _ _ _ _ Hex); congruence.
Qed.

Lemma execute_cases archive_base action w k :
  fs w !! plan_src action = Some k →
  fs w !! plan_destination action = None →
  let '(w', r) := Engine.execute_or_plan move_refused archive_base false action w in
  match r with
  | inr _ => fs w' !! plan_src action = None ∧ fs w' !! plan_destination action = Some k
  | inl _ => fs w' !! plan_src action = Some k
  end.
Proof.
  intros Hsrc Hdst.
  assert (plan_src action ≠ plan_destination action) as Hne by congruence.
  unfold Engine.execute_or_plan. unfold bind at 1 2. unfold gets at 1.
  set (guard := if negb (path_exists (fs w) (parent (plan_destination action))) then _ else _).
  assert (∀ w1 r1, guard w = (w1, r1) → ∀ q k, fs w !! q = Some k → fs w1 !! q = Some k)
    as Hguard.
  { subst guard. intros w1 r1. destruct (negb _); [|by intros [= <- <-]].
    destruct (Str.startswith _ _); [apply mkdir_keeps|by intros [= <- <-]]. }
  destruct (guard w) as [w1 [e|[]]] eqn:Hg; pose proof (Hguard _ _ eq_refl) as Hkeep.
  { by apply Hkeep. }
  unfold bind.
  pose proof (do_move_cases (plan_src action) (plan_destination action) w1 k
                (Hkeep _ _ Hsrc) Hne) as Hmv.
  destruct (do_move _ _ w1) as [w2 [e|p]].
  - destruct Hmv as [_ Hmv]. by apply Hmv, Hkeep.
  - destruct Hmv as (_ & _ & H1 & H2). unfold modify. simpl. by split.
Qed.

(** A round of an executing run, for a file that is on disk: either the
    file is moved -- the recorded decision is not an error, names a
    destination where nothing was before, the destination now holds the
    file and the source is gone -- or an error is recorded and the file is
    still at its source.  There is no third outcome. *)
Theorem execute_round_moves_or_leaves
    (archive_base : Path) (keyword_map : list (string * rule))
    (extension_map mime_map : gmap string string) (file : Path) (w : world) (k : kind) :
  fs w !! file = Some k →
  let w' := process_entry archive_base keyword_map extension_map mime_map false file w in
  ∃ a, actions w' = actions w ++ [a] ∧ source a = OStr (str file) ∧
       ((stage a = "error" ∧ fs w' !! file = Some k)
        ∨ (stage a ≠ "error" ∧
           ∃ destination, outcome a = OStr (str destination) ∧
                          fs w !! destination = None ∧
                          fs w' !! destination = Some k ∧
                          fs w' !! file = None)).
Proof.
  intros Hfile. simpl.
  destruct (process_entry_cases expandvars_expanduser detect_mime date_today move_refused
              archive_base keyword_map extension_map mime_map false file w) as
    [(e & _ & _ & _ & ->)
    |(p & w1 & Hcl & _ & Hf1 & Ha1 & Hst & _ & Hsrc &
        [(w2 & Hex & -> & _ & Ha2)|(w2 & e & _ & Hex & _ & _ & Ha2 & ->)])].
  - exists (error_action file e). simpl. split; [done|]. split; [done|]. by left.
  - pose proof (classify_destination_free _ _ _ _ _ _ _ _ Hcl) as Hfree.
    pose proof (execute_cases archive_base p w1 k) as Hcases.
    rewrite Hsrc, Hf1, Hex in Hcases. destruct (Hcases Hfile Hfree) as [Hgone Hthere].
    exists (performed p (plan_destination p)). rewrite Ha2, Ha1. split; [done|].
    simpl. rewrite Hsrc. split; [done|]. right. split.
    + rewrite Hst. by destruct (Engine.category_of _ _ _ _ _).
    + by exists (plan_destination p).
  - pose proof (classify_destination_free _ _ _ _ _ _ _ _ Hcl) as Hfree.
    pose proof (execute_cases archive_base p w1 k) as Hcases.
    rewrite Hsrc, Hf1, Hex in Hcases. specialize (Hcases Hfile Hfree).
    exists (error_action file e). simpl. rewrite Ha2, Ha1.
    split; [done|]. split; [done|]. by left.
Qed.

Lemma process_files_keeps archive_base keyword_map extension_map mime_map dry_run files w :
  ∀ q k, q ∉ files → fs w !! q = Some k →
    fs (process_files archive_base keyword_map extension_map mime_map dry_run files w) !! q
    = Some k.
Proof.
  revert w. induction files as [|file rest IH]; intros w q k Hq Hk; [done|]. simpl.
  apply not_elem_of_cons in Hq as [Hq1 Hq2].
  apply IH; [done|]. by apply process_entry_keeps.
Qed.

(** A run, dry or not, removes and overwrites nothing but the files it
    discovered: every other entry of the file system is still there, with
    what it held, when the run is over. *)
Theorem run_keeps_everything_else
    (cfg : config) (dry_run : bool) (f0 : filesystem) (t0 : nat) (w : world) :
  process_run cfg dry_run f0 t0 = inr w →
  ∃ downloads files,
    Engine.expand_path expandvars_expanduser (Some (paths_downloads cfg)) = inr downloads ∧
    discover_files f0 downloads = inr files ∧
    ∀ q k, f0 !! q = Some k → q ∉ files → fs w !! q = Some k.
Proof.
  intros (downloads & ab & files & Hd & Ha & Hf & ->)%process_run_inv.
  exists downloads, files. do 2 (split; [done|]).
  intros q k Hk Hq. by apply process_files_keeps.
Qed.

End Moves.

(** ** The matchers on content type and extension *)

Lemma before_first_split c s :
  ∃ rest, s = Str.before_first c s +:+ rest ∧
          Str.free_of c (Str.before_first c s) = true ∧
          (rest = "" ∨ ∃ rest', rest = String c rest').
Proof.
  induction s as [|a s (rest & Hs & Hfree & Hrest)]; simpl.
  - exists "". split; [done|]. split; [done|]. by left.
  - destruct (decide (a = c)) as [->|Hne].
    + exists (String c s). split; [done|]. split; [done|]. right. by exists s.
    + exists rest. rewrite app_cons, <- Hs. split; [done|]. split; [|done].
      simpl. rewrite Hfree. by rewrite bool_decide_eq_false_2.
Qed.

(** [match_mime]: a key is reported only for a non-empty type string and
    only with the non-empty target the map holds for it; the key is the
    type string itself when that has such a target, and otherwise the text
    before its first slash; nothing is reported exactly when neither has
    one. *)
Theorem match_mime_exact_then_category (mime_str : string) (mime_map : gmap string string) :
  let category := Str.before_first "/" mime_str in
  (∃ rest, mime_str = category +:+ rest ∧ Str.free_of "/" category = true ∧
           (rest = "" ∨ ∃ rest', rest = String "/" rest'))
  ∧ match match_mime mime_str mime_map with
    | (Some key, target) =>
        mime_str ≠ "" ∧ target = mime_map !! key ∧ truthy_opt target = true ∧
        (key = mime_str
         ∨ (key = category ∧ truthy_opt (mime_map !! mime_str) = false))
    | (None, target) =>
        target = None ∧
        (mime_str = ""
         ∨ (truthy_opt (mime_map !! mime_str) = false ∧
            truthy_opt (mime_map !! category) = false))
    end.
Proof.
  simpl. split; [apply before_first_split|].
  unfold match_mime, truthy at 1.
  destruct (decide (mime_str = "")) as [->|Hne].
  { simpl. split; [done|by left]. }
  rewrite bool_decide_eq_false_2 by done. simpl.
  destruct (truthy_opt (mime_map !! mime_str)) eqn:E1.
  { repeat split; [done|done|by left]. }
  destruct (truthy_opt (mime_map !! Str.before_first "/" mime_str)) eqn:E2.
  { repeat split; [done|done|by right]. }
  split; [done|by right].
Qed.

(** [match_extension]: a reported key is never empty, is in lower case, is
    the lower-cased text after the last dot of the name, and comes with the
    non-empty target the map holds for it.  A map key that contains a
    capital letter is therefore never reported. *)
Theorem match_extension_reports_lower_case (filename : string) (extension_map : gmap string string) :
  match match_extension filename extension_map with
  | (Some key, target) =>
      key ≠ "" ∧ Str.lower key = key ∧
      target = extension_map !! key ∧ truthy_opt target = true ∧
      ∃ ext, suffix (Path_of filename) = String "." ext ∧
             Str.free_of "." ext = true ∧ key = Str.lower ext
  | (None, target) => target = None
  end.
Proof.
  unfold match_extension.
  destruct (truthy (Str.lstrip "." (Str.lower (suffix (Path_of filename))))) eqn:Hs; simpl;
    [|done].
  destruct (truthy_opt (extension_map !! _)) eqn:Ht; [|done].
  assert (Str.lstrip "." (Str.lower (suffix (Path_of filename))) ≠ "") as Hne.
  { unfold truthy in Hs. by apply negb_true_iff, bool_decide_eq_false in Hs. }
  destruct (lookup_suffix _ Hne) as (ext & Hsuf & Hfree & Hkey & _).
  split; [done|]. split; [by rewrite Hkey, lower_idemp|].
  split; [done|]. split; [done|]. by exists ext.
Qed.

(** ** Discovery *)

#[local] Instance name_le_total : Total name_le.
Proof. intros a b. unfold name_le. apply String.le_total. Qed.

(** [discover_files]: the files it returns are in the order of their
    lower-cased names, without repetition, and all of them are files
    directly inside the source directory whose name does not begin with a
    dot; when the source directory is there they are all such entries, and
    when it is not there, there are none. *)
Theorem discover_files_lists_plain_files (f : filesystem) (downloads_path : Path) (files : list Path) :
  discover_files f downloads_path = inr files →
  NoDup files
  ∧ Sorted name_le files
  ∧ (∀ e, e ∈ files →
          f !! e = Some File ∧ parent e = downloads_path ∧ parts e ≠ [] ∧
          Str.startswith (name e) "." = false)
  ∧ (path_exists f downloads_path = true →
     ∀ e, f !! e = Some File → parent e = downloads_path → parts e ≠ [] →
          Str.startswith (name e) "." = false → e ∈ files)
  ∧ (path_exists f downloads_path = false → files = []).
Proof.
  unfold discover_files.
  destruct (path_exists f downloads_path) eqn:Hex; simpl.
  2: { intros [= <-]. split; [constructor|]. split; [constructor|].
       split; [by intros e ?%elem_of_nil|]. by split. }
  destruct (is_file f downloads_path); [done|]. intros [= <-].
  split.
  { rewrite merge_sort_Permutation. apply NoDup_filter. unfold iterdir.
    apply NoDup_filter, NoDup_fst_map_to_list. }
  split; [apply Sorted_merge_sort, _|].
  split; [|split; [|done]].
  - intros e. rewrite merge_sort_Permutation, list_elem_of_filter. unfold iterdir.
    rewrite list_elem_of_filter. unfold is_file.
    intros (Hp & (Hpar & Hparts) & _). apply andb_prop_elim in Hp as [Hhid Hfile].
    apply bool_decide_unpack in Hfile. apply negb_prop_elim, Is_true_false in Hhid. done.
  - intros _ e Hfile Hpar Hparts Hhid.
    rewrite merge_sort_Permutation, list_elem_of_filter. unfold iterdir.
    rewrite list_elem_of_filter, list_elem_of_fmap. unfold is_file.
    split; [|split; [done|]].
    + apply andb_prop_intro. split.
      * rewrite Hhid. done.
      * by apply bool_decide_pack.
    + exists (e, File). split; [done|]. by apply elem_of_map_to_list.
Qed.

(** ** Successive names *)

(** Two files of the same name routed to the same folder one after the
    other get different destinations: once the first answer of the namer is
    occupied, its next answer is another path, and nothing was at either
    before. *)
Theorem successive_names_differ
    (f : filesystem) (destination_dir : Path) (filename : string) (k : kind) :
  let first := make_collision_safe_target f destination_dir filename in
  let second := make_collision_safe_target (<[first := k]> f) destination_dir filename in
  second ≠ first ∧ f !! first = None ∧ f !! second = None.
Proof.
  simpl.
  pose proof (namer_free f destination_dir filename) as H1.
  pose proof (namer_free (<[make_collision_safe_target f destination_dir filename := k]> f)
                destination_dir filename) as H2.
  apply not_exists_lookup in H1, H2.
  assert (make_collision_safe_target
            (<[make_collision_safe_target f destination_dir filename := k]> f)
            destination_dir filename
          ≠ make_collision_safe_target f destination_dir filename) as Hne.
  { intros Heq. rewrite Heq in H2. by rewrite lookup_insert_eq in H2. }
  split; [done|]. split; [done|]. by rewrite lookup_insert_ne in H2.
Qed.

(** ** Path expansion and the start of a run *)

Section Screening.

Variable expandvars_expanduser : string → string.
Variable detect_mime : Path → string.
Variable date_today : nat → date.
Variable move_refused : Path → Path → option string.

#[local] Abbreviation expand_path := (expand_path expandvars_expanduser).
#[local] Abbreviation process_run :=
  (process_run expandvars_expanduser detect_mime date_today move_refused).
#[local] Abbreviation process_entry :=
  (process_entry expandvars_expanduser detect_mime date_today move_refused).
#[local] Abbreviation process_files :=
  (process_files expandvars_expanduser detect_mime date_today move_refused).

Lemma forbidden_found raw :
  existsb (λ passed_path, Str.contains raw passed_path) forbidden_patterns = true
  ↔ Exists (λ pattern, occurs pattern raw) forbidden_patterns.
Proof.
  rewrite existsb_exists, Exists_exists. split.
  - intros (pattern & Hin%list_elem_of_In & Hc%contains_occurs). by exists pattern.
  - intros (pattern & Hin%list_elem_of_In & Hc%contains_occurs). by exists pattern.
Qed.

(** [expand_path] looks for the five forbidden expressions in the text as
    written, before any expansion: if one of [$(], a backtick, [;], [|],
    [&] occurs in it, the answer is a [ValueError] whose message quotes the
    text; if none does, the answer is the path of the expanded text,
    whatever the expansion brought in.  A value that is not a string is a
    [ValueError] too. *)
Theorem expand_path_screens_the_raw_text (raw : string) :
  (Exists (λ pattern, occurs pattern raw) ["$("; "`"; ";"; "|"; "&"] →
     ∃ msg, expand_path (Some raw) = inl (ValueError msg) ∧ occurs raw msg)
  ∧ (Forall (λ pattern, ¬ occurs pattern raw) ["$("; "`"; ";"; "|"; "&"] →
       expand_path (Some raw) = inr (Path_of (expandvars_expanduser raw)))
  ∧ expand_path None = inl (ValueError "Invalid path type (expected string): None").
Proof.
  unfold Engine.expand_path. split; [|split; [|done]].
  - intros H%forbidden_found. rewrite H. eexists. split; [done|].
    by exists "Forbidden shell-like expression detected in path: ",
      (newline +:+ "Use only '~' or '$HOME' for dynamic user resolution.").
  - intros H. destruct (existsb _ _) eqn:E; [|done].
    apply forbidden_found, Exists_exists in E as (pattern & Hin & Ho).
    eapply Forall_forall in H; [|done]. done.
Qed.

(** A run whose source directory is not there scans nothing: the summary
    is empty and the file system untouched.  And a forbidden expression in
    either configured path ends the run with the [ValueError] itself, before
    any file is looked at; it is not turned into an error decision. *)
Theorem run_without_source_is_empty
    (cfg : config) (dry_run : bool) (f0 : filesystem) (t0 : nat) :
  (∀ downloads archive_base,
     expand_path (Some (paths_downloads cfg)) = inr downloads →
     expand_path (Some (paths_archive_base cfg)) = inr archive_base →
     path_exists f0 downloads = false →
     process_run cfg dry_run f0 t0 = inr (mkWorld f0 counts0 [] t0))
  ∧ (∀ e, expand_path (Some (paths_downloads cfg)) = inl e →
          process_run cfg dry_run f0 t0 = inl e)
  ∧ (∀ downloads e,
       expand_path (Some (paths_downloads cfg)) = inr downloads →
       expand_path (Some (paths_archive_base cfg)) = inl e →
       process_run cfg dry_run f0 t0 = inl e).
Proof.
  unfold Engine.process_run. split; [|split].
  - intros downloads archive_base -> -> Hex. unfold discover_files. by rewrite Hex.
  - by intros e ->.
  - by intros downloads e -> ->.
Qed.

Lemma process_files_counts_dry archive_base keyword_map extension_map mime_map files w :
  let w' := process_files archive_base keyword_map extension_map mime_map true files w in
  scanned (counts w') = scanned (counts w) ∧
  classified (counts w') + errors (counts w')
    = classified (counts w) + errors (counts w) + length files ∧
  length (actions w') = length (actions w) + length files.
Proof.
  revert w. induction files as [|file rest IH]; intros w; simpl; [lia|].
  specialize (IH (process_entry archive_base keyword_map extension_map mime_map true file w)).
  simpl in IH. destruct IH as (Hs & Hc & Hl).
  pose proof (process_entry_counts expandvars_expanduser detect_mime date_today move_refused
                archive_base keyword_map extension_map mime_map true file w) as Hround.
  destruct (process_entry_errors expandvars_expanduser detect_mime date_today move_refused
              archive_base keyword_map extension_map mime_map true file w) as (a & Ha & _).
  simpl in Hround.
  pose proof (tally_of_counts
                (Engine.category_of detect_mime keyword_map extension_map mime_map file)
                (counts w)) as (Hts & Hte & Htc).
  rewrite Ha, List.length_app in Hl. simpl in Hl.
  destruct Hround as [Hr|[[? _]|(_ & _ & Hr)]]; [|done|]; rewrite Hr in *;
    unfold classified in *; simpl in *; lia.
Qed.

(** In a dry run the tallies add up: every scanned file is counted once,
    either in one of the four classification tallies or as an error (never
    both), and the number of recorded decisions is the number scanned. *)
Theorem dry_run_tallies_add_up (cfg : config) (f0 : filesystem) (t0 : nat) (w : world) :
  process_run cfg true f0 t0 = inr w →
  keyword (counts w) + extension (counts w) + mime (counts w) + archived (counts w)
    + errors (counts w) = scanned (counts w)
  ∧ length (actions w) = scanned (counts w).
Proof.
  intros (downloads & ab & files & Hd & Ha & Hf & ->)%process_run_inv.
  pose proof (process_files_counts_dry ab (routing_keyword_map cfg) (routing_extension_map cfg)
                (routing_mime_map cfg) files
                (mkWorld f0 (set_scanned (length files) counts0) [] t0)) as H.
  simpl in H. unfold classified in H. simpl in H. lia.
Qed.

End Screening.

(** ** Printing the summary *)

Lemma print_actions_clean actions out :
  Forall (λ a, stage a ≠ "error") actions →
  ∃ lines, print_actions actions out = (out ++ lines, None) ∧
           length lines = length actions.
Proof.
  intros H. revert out. induction H as [|a rest Ha _ IH]; intros out; simpl.
  - exists []. by rewrite app_nil_r.
  - unfold action_line. rewrite bool_decide_eq_false_2 by done.
    match goal with
    | |- context [print_actions rest (out ++ [?line])] =>
        destruct (IH (out ++ [line])) as (lines & -> & Hlen); exists (line :: lines)
    end.
    rewrite <- app_assoc. split; [done|]. simpl. by rewrite Hlen.
Qed.

Lemma print_actions_stops before a after out :
  Forall (λ b, stage b ≠ "error") before →
  stage a = "error" →
  ∃ lines, print_actions (before ++ a :: after) out
           = (out ++ lines, Some (NameError "name 'a' is not defined")) ∧
           length lines = length before.
Proof.
  intros H Ha. revert out. induction H as [|b rest Hb _ IH]; intros out; simpl.
  - unfold action_line. rewrite bool_decide_eq_true_2 by done.
    exists []. by rewrite app_nil_r.
  - unfold action_line at 1. rewrite bool_decide_eq_false_2 by done.
    match goal with
    | |- context [print_actions _ (out ++ [?line])] =>
        destruct (IH (out ++ [line])) as (lines & -> & Hlen); exists (line :: lines)
    end.
    rewrite <- app_assoc. split; [done|]. simpl. by rewrite Hlen.
Qed.

(** The first error among the actions, if there is one. *)
Lemma first_error (actions : list action) :
  Forall (λ a, stage a ≠ "error") actions
  ∨ ∃ before a after, actions = before ++ a :: after ∧
                      Forall (λ b, stage b ≠ "error") before ∧ stage a = "error".
Proof.
  induction actions as [|a rest [IH|(before & b & after & -> & Hb & Hs)]].
  - left. constructor.
  - destruct (decide (stage a = "error")) as [Ha|Ha].
    + right. exists [], a, rest. by repeat split.
    + left. by constructor.
  - destruct (decide (stage a = "error")) as [Ha|Ha].
    + right. exists [], a, (before ++ b :: after). by repeat split.
    + right. exists (a :: before), b, after. repeat split; [|done]. by constructor.
Qed.

(** [pretty_print_plan] gets through a summary without errors, printing
    the six tallies, an empty line, a heading and one line per decision.
    At the first error decision it stops with a [NameError], having printed
    the lines of the decisions before it: it never prints an error. *)
Theorem pretty_print_plan_stops_at_first_error (summary : world) (dry_run : bool) :
  (Forall (λ a, stage a ≠ "error") (actions summary) →
     ∃ lines, pretty_print_plan summary dry_run = (lines, None) ∧
              length lines = 8 + length (actions summary))
  ∧ (∀ before a after,
       actions summary = before ++ a :: after →
       Forall (λ b, stage b ≠ "error") before →
       stage a = "error" →
       ∃ lines, pretty_print_plan summary dry_run
                = (lines, Some (NameError "name 'a' is not defined")) ∧
                length lines = 8 + length before).
Proof.
  unfold pretty_print_plan. split.
  - intros H. destruct (print_actions_clean _
      (count_lines (counts summary)
         ++ [""; if dry_run then "Planned actions (dry-run):" else "Performed actions:"]) H)
      as (lines & -> & Hlen).
    eexists. split; [done|]. rewrite !List.length_app. simpl. lia.
  - intros before a after -> Hb Ha.
    destruct (print_actions_stops before a after
      (count_lines (counts summary)
         ++ [""; if dry_run then "Planned actions (dry-run):" else "Performed actions:"]) Hb Ha)
      as (lines & -> & Hlen).
    eexists. split; [done|]. rewrite !List.length_app. simpl. lia.
Qed.

(** ** Validation and the command line *)

Lemma no_errors_filtered (l : list action) :
  length (filter (λ a, stage a = "error") l) = 0 ↔ Forall (λ a, stage a ≠ "error") l.
Proof.
  induction l as [|a l IH]; [by split; [constructor|]|].
  destruct (decide (stage a = "error")) as [Ha|Ha].
  - rewrite filter_cons_True by done. simpl. split; [lia|]. by inversion 1.
  - rewrite filter_cons_False by done. rewrite IH. split; [by constructor|by inversion 1].
Qed.

Section CommandLineFacts.

Variable expandvars_expanduser : string → string.
Variable detect_mime : Path → string.
Variable date_today : nat → date.
Variable move_refused : Path → Path → option string.

#[local] Abbreviation expand_path := (expand_path expandvars_expanduser).
#[local] Abbreviation resolves := (resolves expandvars_expanduser).
#[local] Abbreviation validate_strings := (validate_strings expandvars_expanduser).
#[local] Abbreviation validate_keywords := (validate_keywords expandvars_expanduser).
#[local] Abbreviation validation_errors' := (validation_errors expandvars_expanduser).
#[local] Abbreviation validate_config_paths' := (validate_config_paths expandvars_expanduser).
#[local] Abbreviation run_loaded' :=
  (run_loaded expandvars_expanduser detect_mime date_today move_refused).
#[local] Abbreviation main' := (main expandvars_expanduser detect_mime date_today move_refused).

#[local] Arguments Engine.expand_path : simpl never.

Lemma expand_path_raises raw e : expand_path raw = inl e → ∃ msg, e = ValueError msg.
Proof.
  unfold Engine.expand_path. destruct raw as [raw|]; [|intros [= <-]; by eexists].
  destruct (existsb _ _); [|done]. intros [= <-]. by eexists.
Qed.

Lemma report_missing_adds f label resolved errors :
  ∃ extra, report_missing f label resolved errors = errors ++ extra ∧
           (extra = [] ↔ path_exists f resolved = true).
Proof.
  unfold report_missing. destruct (path_exists f resolved); simpl.
  - exists []. by rewrite app_nil_r.
  - eexists [_]. split; [done|]. by split.
Qed.

Lemma validate_strings_cases f section wording items errors :
  match validate_strings f section wording items errors with
  | inr errors' =>
      ∃ extra, errors' = errors ++ extra ∧
               (extra = [] ↔ Forall (λ it, resolves f (Some it.2)) items)
  | inl u =>
      (∃ msg, u = Uncaught (ValueError msg)) ∧
      ¬ Forall (λ it, resolves f (Some it.2)) items
  end.
Proof.
  revert errors. induction items as [|[name raw] rest IH]; intros errors; simpl.
  - exists []. rewrite app_nil_r. by split.
  - destruct (expand_path (Some raw)) as [e|resolved] eqn:Hx; simpl.
    { destruct (expand_path_raises _ _ Hx) as [msg ->]. split; [by exists msg|].
      inversion_clear 1 as [|?? Hres _]. destruct Hres as (p & Hp & _).
      simpl in Hp. congruence. }
    destruct (report_missing_adds f ("[" +:+ section +:+ "." +:+ name +:+ "] " +:+ wording)
                resolved errors) as (extra1 & -> & Hextra1).
    specialize (IH (errors ++ extra1)).
    destruct (validate_strings f section wording rest (errors ++ extra1)) as [u|errors'].
    { destruct IH as [Hu Hno]. split; [done|]. by inversion_clear 1. }
    destruct IH as (extra2 & -> & Hextra2). exists (extra1 ++ extra2).
    rewrite app_assoc. split; [done|]. split.
    + intros [H1 H2]%app_eq_nil. constructor; [|by apply Hextra2].
      exists resolved. split; [done|]. by apply Hextra1.
    + inversion_clear 1 as [|?? Hres Hrest]. destruct Hres as (p & Hp & Hex). simpl in Hp.
      rewrite Hx in Hp. injection Hp as <-.
      apply Hextra1 in Hex as ->. by apply Hextra2 in Hrest as ->.
Qed.

Lemma validate_keywords_cases f items errors :
  match validate_keywords f items errors with
  | inr errors' =>
      Forall (λ it, is_Some (rule_get_target it.2)) items ∧
      ∃ extra, errors' = errors ++ extra ∧
               (extra = [] ↔ Forall (λ it, resolves f (rule_get_target it.2)) items)
  | inl u =>
      (∃ msg, u = Uncaught (ValueError msg)) ∧
      ¬ Forall (λ it, resolves f (rule_get_target it.2)) items
  end.
Proof.
  revert errors. induction items as [|[keyword rule] rest IH]; intros errors; simpl.
  - split; [constructor|]. exists []. rewrite app_nil_r. by split.
  - destruct (expand_path (rule_get_target rule)) as [e|resolved] eqn:Hx; simpl.
    { destruct (expand_path_raises _ _ Hx) as [msg ->]. split; [by exists msg|].
      inversion_clear 1 as [|?? Hres _]. destruct Hres as (p & Hp & _).
      simpl in Hp. congruence. }
    destruct (rule_get_target rule) as [target|] eqn:Ht; [|done].
    simpl.
    destruct (report_missing_adds f ("[keyword_map." +:+ keyword +:+ "] Missing target directory: ")
                resolved errors) as (extra1 & -> & Hextra1).
    specialize (IH (errors ++ extra1)).
    destruct (validate_keywords f rest (errors ++ extra1)) as [u|errors'].
    { destruct IH as [Hu Hno]. split; [done|]. by inversion_clear 1. }
    destruct IH as (Hsome & extra2 & -> & Hextra2).
    split; [constructor; [simpl; by rewrite Ht|done]|].
    exists (extra1 ++ extra2). rewrite app_assoc. split; [done|]. split.
    + intros [H1 H2]%app_eq_nil. constructor; [|by apply Hextra2].
      exists resolved. simpl. rewrite Ht. split; [done|]. by apply Hextra1.
    + inversion_clear 1 as [|?? Hres Hrest]. destruct Hres as (p & Hp & Hex). simpl in Hp.
      rewrite Ht, Hx in Hp. injection Hp as <-.
      apply Hextra1 in Hex as ->. by apply Hextra2 in Hrest as ->.
Qed.

(** What the four checks amount to. *)
Lemma validation_errors_cases f raw :
  let all_resolve :=
    Forall (λ it, resolves f (Some it.2)) (default [] (cfg_paths raw)) ∧
    Forall (λ it, resolves f (rule_get_target it.2)) (cfg_keyword_map raw) ∧
    Forall (λ it, resolves f (Some it.2)) (cfg_extension_map raw) ∧
    Forall (λ it, resolves f (Some it.2)) (cfg_mime_map raw) in
  match validation_errors' f raw with
  | inr errors =>
      Forall (λ it, is_Some (rule_get_target it.2)) (cfg_keyword_map raw) ∧
      (errors = [] ↔ all_resolve)
  | inl u => (∃ msg, u = Uncaught (ValueError msg)) ∧ ¬ all_resolve
  end.
Proof.
  simpl. unfold validation_errors.
  pose proof (validate_strings_cases f "paths" "Missing directory: "
                (default [] (cfg_paths raw)) []) as H1.
  destruct (validate_strings f "paths" _ _ []) as [u|errors1].
  { destruct H1 as [Hu Hno]. split; [done|]. by intros (? & _). }
  destruct H1 as (extra1 & -> & Hextra1). simpl.
  pose proof (validate_keywords_cases f (cfg_keyword_map raw) extra1) as H2.
  destruct (validate_keywords f _ extra1) as [u|errors2].
  { destruct H2 as [Hu Hno]. split; [done|]. by intros (_ & ? & _). }
  destruct H2 as (Hsome & extra2 & -> & Hextra2).
  pose proof (validate_strings_cases f "extension_map" "Missing target directory: "
                (cfg_extension_map raw) (extra1 ++ extra2)) as H3.
  destruct (validate_strings f "extension_map" _ _ _) as [u|errors3].
  { destruct H3 as [Hu Hno]. split; [done|]. by intros (_ & _ & ? & _). }
  destruct H3 as (extra3 & -> & Hextra3).
  pose proof (validate_strings_cases f "mime_map" "Missing target directory: "
                (cfg_mime_map raw) ((extra1 ++ extra2) ++ extra3)) as H4.
  destruct (validate_strings f "mime_map" _ _ _) as [u|errors4].
  { destruct H4 as [Hu Hno]. split; [done|]. by intros (_ & _ & _ & ?). }
  destruct H4 as (extra4 & -> & Hextra4).
  split; [done|]. split.
  - intros [[[H1 H2]%app_eq_nil H3]%app_eq_nil H4]%app_eq_nil.
    split; [by apply Hextra1|]. split; [by apply Hextra2|].
    split; [by apply Hextra3|by apply Hextra4].
  - intros (H1%Hextra1 & H2%Hextra2 & H3%Hextra3 & H4%Hextra4). by subst.
Qed.

(** [validate_config_paths] returns exactly when every configured path and
    every rule target expands and is there.  Otherwise it either exits with
    code 3 after listing what is missing, or an exception escapes it, which
    is always the [ValueError] of [expand_path].  A keyword rule without
    target is of the second kind: the report written for it is never
    reached, and so neither is the undefined name in that report. *)
Theorem validation_returns_iff_all_resolve (f : filesystem) (raw : raw_config) :
  (validate_config_paths' f raw = ([], Returned) ↔
     Forall (λ it, resolves f (Some it.2)) (default [] (cfg_paths raw)) ∧
     Forall (λ it, resolves f (rule_get_target it.2)) (cfg_keyword_map raw) ∧
     Forall (λ it, resolves f (Some it.2)) (cfg_extension_map raw) ∧
     Forall (λ it, resolves f (Some it.2)) (cfg_mime_map raw))
  ∧ ((validate_config_paths' f raw).2 = Returned
     ∨ ((validate_config_paths' f raw).2 = Exited 3 ∧ (validate_config_paths' f raw).1 ≠ [])
     ∨ ∃ msg, (validate_config_paths' f raw).2 = Failed (Uncaught (ValueError msg)))
  ∧ (Exists (λ it, rule_get_target it.2 = None) (cfg_keyword_map raw) →
     ∃ msg, (validate_config_paths' f raw).2 = Failed (Uncaught (ValueError msg))).
Proof.
  unfold validate_config_paths.
  pose proof (validation_errors_cases f raw) as H. simpl in H.
  destruct (validation_errors' f raw) as [u|errors].
  - destruct H as [[msg ->] Hno]. split; [|split].
    + split; [done|]. intros Hall. by destruct Hno.
    + right; right. by exists msg.
    + intros _. by exists msg.
  - destruct H as [Hsome Hiff].
    assert (¬ Exists (λ it, rule_get_target it.2 = None) (cfg_keyword_map raw)) as Hno.
    { intros (it & Hin & Hnone)%Exists_exists.
      eapply Forall_forall in Hsome; [|done]. rewrite Hnone in Hsome. by destruct Hsome. }
    destruct errors as [|err errors].
    + split; [|split; [by left|done]]. split; [intros _; by apply Hiff|done].
    + split; [|split; [right; left; by split|done]].
      split; [done|]. intros Hall%Hiff. done.
Qed.

Lemma pretty_print_cases summary dry_run :
  (Forall (λ a, stage a ≠ "error") (actions summary) ∧
   (pretty_print_plan summary dry_run).2 = None)
  ∨ (¬ Forall (λ a, stage a ≠ "error") (actions summary) ∧
     (pretty_print_plan summary dry_run).2 = Some (NameError "name 'a' is not defined")).
Proof.
  unfold pretty_print_plan.
  destruct (first_error (actions summary)) as [H|(before & a & after & Heq & Hb & Ha)].
  - left. split; [done|].
    by destruct (print_actions_clean _
      (count_lines (counts summary)
         ++ [""; if dry_run then "Planned actions (dry-run):" else "Performed actions:"]) H)
      as (lines & -> & _).
  - right. split.
    + rewrite Heq. intros Hall. apply Forall_app in Hall as [_ Hall].
      by inversion_clear Hall.
    + rewrite Heq.
      by destruct (print_actions_stops before a after
        (count_lines (counts summary)
           ++ [""; if dry_run then "Planned actions (dry-run):" else "Performed actions:"])
        Hb Ha) as (lines & -> & _).
Qed.

(** The error tally of a finished run is zero exactly when no decision is
    an error. *)
Lemma run_loaded_errors raw dry_run f0 t0 w :
  run_loaded' raw dry_run f0 t0 = inr w →
  errors (counts w) = 0 ↔ Forall (λ a, stage a ≠ "error") (actions w).
Proof.
  unfold run_loaded.
  destruct (cfg_paths raw) as [paths|]; [|done].
  destruct (items_get "downloads" paths) as [downloads|]; [|done].
  destruct (expand_path (Some downloads)); [done|].
  destruct (items_get "archive_base" paths) as [archive_base|]; [|done].
  destruct (Engine.process_run _ _ _ _ _ _ _ _) as [e|w'] eqn:Hrun; [done|].
  intros [= ->].
  apply process_run_inv in Hrun as (d & ab & files & _ & _ & _ & ->).
  destruct (process_files_errors expandvars_expanduser detect_mime date_today move_refused ab
              (cfg_keyword_map raw) (list_to_map (cfg_extension_map raw))
              (list_to_map (cfg_mime_map raw)) dry_run files
              (mkWorld f0 (set_scanned (length files) counts0) [] t0))
    as (new & Hnew & _ & Herr).
  simpl in *. rewrite Herr, Hnew. simpl. apply no_errors_filtered.
Qed.

Lemma validate_endings f raw :
  (validate_config_paths' f raw).2 = Returned
  ∨ (validate_config_paths' f raw).2 = Exited 3
  ∨ ∃ u, (validate_config_paths' f raw).2 = Failed u.
Proof.
  unfold validate_config_paths. destruct (validation_errors' f raw) as [u|[|err errors]].
  - right; right. by exists u.
  - by left.
  - right; by left.
Qed.

(** [main] never exits with code 4.  That code is meant for a run that
    recorded errors, but printing such a run's summary raises the
    [NameError] of [pretty_print_plan] first: a run with errors ends in that
    exception, after the moves have been made. *)
Theorem main_never_exits_with_4
    (loaded : exn + raw_config) (dry_run : bool) (f0 : filesystem) (t0 : nat) :
  outcome_of (main' loaded dry_run f0 t0) ≠ Exited 4
  ∧ (∀ raw w,
       loaded = inr raw →
       (validate_config_paths' f0 raw).2 = Returned →
       run_loaded' raw dry_run f0 t0 = inr w →
       0 < errors (counts w) →
       outcome_of (main' loaded dry_run f0 t0) = Failed (NameError "name 'a' is not defined")
       ∧ disk (main' loaded dry_run f0 t0) = fs w).
Proof.
  unfold main. destruct loaded as [e|raw]; [by split|].
  destruct (validate_config_paths' f0 raw) as [err stopped] eqn:Hv.
  pose proof (validate_endings f0 raw) as Hend. rewrite Hv in Hend. simpl in Hend.
  destruct stopped as [|code|u].
  2: { destruct Hend as [?|[[= ->]|[? ?]]]; try done. split; [done|].
       intros raw' w [= <-]. rewrite Hv. done. }
  2: { split; [done|]. intros raw' w [= <-]. rewrite Hv. done. }
  destruct (summarize_config raw) as [[keywords extensions] mimes].
  destruct (run_loaded' raw dry_run f0 t0) as [u|summary] eqn:Hrun.
  { split; [done|]. intros raw' w [= <-] _ Hr. by rewrite Hrun in Hr. }
  pose proof (run_loaded_errors _ _ _ _ _ Hrun) as Herr.
  destruct (pretty_print_cases summary dry_run) as [[Hall Hp]|[Hnot Hp]];
    destruct (pretty_print_plan summary dry_run) as [out [u|]]; simpl in Hp; try done.
  - apply Herr in Hall. rewrite Hall. simpl. split; [done|].
    intros raw' w [= <-] _ Hr. rewrite Hrun in Hr. injection Hr as <-. lia.
  - injection Hp as ->. split; [done|].
    intros raw' w [= <-] _ Hr _. rewrite Hrun in Hr. by injection Hr as <-.
Qed.


End CommandLineFacts.

(** ** The further properties at the sample installation *)


Lemma execute_round_moves_or_leaves_witness :
  let w' := process_entry id no_mime march_7 never_refused (Path_of "/data/archive")
              (routing_keyword_map cfg_sibling) ∅ ∅ false (Path_of "/dl/inv.txt")
              sample_world in
  ∃ a, actions w' = actions sample_world ++ [a] ∧ source a = OStr (str (Path_of "/dl/inv.txt")) ∧
       ((stage a = "error" ∧ fs w' !! Path_of "/dl/inv.txt" = Some File)
        ∨ (stage a ≠ "error" ∧
           ∃ destination, outcome a = OStr (str destination) ∧
                          fs sample_world !! destination = None ∧
                          fs w' !! destination = Some File ∧
                          fs w' !! Path_of "/dl/inv.txt" = None)).
Proof.
  apply (execute_round_moves_or_leaves id no_mime march_7 never_refused (Path_of "/data/archive")
           (routing_keyword_map cfg_sibling) ∅ ∅ (Path_of "/dl/inv.txt") sample_world File).
  vm_compute. reflexivity.
Defined.

Lemma run_keeps_everything_else_witness :
  ∃ w, sample_run cfg_sibling false sample_fs = inr w ∧
       ∃ downloads files,
         expand_path id (Some (paths_downloads cfg_sibling)) = inr downloads ∧
         discover_files sample_fs downloads = inr files ∧
         ∀ q k, sample_fs !! q = Some k → q ∉ files → fs w !! q = Some k.
Proof.
  eexists. split; [vm_compute; reflexivity|].
  apply (run_keeps_everything_else id no_mime march_7 never_refused cfg_sibling false sample_fs 0).
  vm_compute. reflexivity.
Defined.

Lemma discover_files_lists_plain_files_witness :
  NoDup [Path_of "/dl/inv.txt"]
  ∧ Sorted name_le [Path_of "/dl/inv.txt"]
  ∧ (∀ e, e ∈ [Path_of "/dl/inv.txt"] →
          sample_fs !! e = Some File ∧ parent e = Path_of "/dl" ∧ parts e ≠ [] ∧
          Str.startswith (name e) "." = false)
  ∧ (path_exists sample_fs (Path_of "/dl") = true →
     ∀ e, sample_fs !! e = Some File → parent e = Path_of "/dl" → parts e ≠ [] →
          Str.startswith (name e) "." = false → e ∈ [Path_of "/dl/inv.txt"])
  ∧ (path_exists sample_fs (Path_of "/dl") = false → [Path_of "/dl/inv.txt"] = []).
Proof.
  apply (discover_files_lists_plain_files sample_fs (Path_of "/dl") [Path_of "/dl/inv.txt"]).
  vm_compute. reflexivity.
Defined.

Lemma dry_run_tallies_add_up_witness :
  ∃ w, sample_run cfg_no_target true sample_fs = inr w ∧
       keyword (counts w) + extension (counts w) + mime (counts w) + archived (counts w)
         + errors (counts w) = scanned (counts w)
       ∧ length (actions w) = scanned (counts w).
Proof.
  eexists. split; [vm_compute; reflexivity|].
  apply (dry_run_tallies_add_up id no_mime march_7 never_refused cfg_no_target sample_fs 0).
  vm_compute. reflexivity.
Defined.

Lemma expand_path_screens_the_raw_text_witness :
  expand_path id (Some "~/Downloads") = inr (Path_of "~/Downloads")
  ∧ ∃ msg, expand_path id (Some "/tmp/$(whoami)") = inl (ValueError msg) ∧
           occurs "/tmp/$(whoami)" msg.
Proof.
  split.
  - apply (proj1 (proj2 (expand_path_screens_the_raw_text id "~/Downloads"))).
    repeat constructor; intros H%contains_occurs; vm_compute in H; discriminate.
  - apply (proj1 (expand_path_screens_the_raw_text id "/tmp/$(whoami)")).
    constructor. apply contains_occurs. vm_compute. reflexivity.
Defined.

Lemma run_without_source_is_empty_witness :
  process_run id no_mime march_7 never_refused
    (mkConfig "/nowhere" "/data/archive" [] ∅ ∅) false sample_fs 0
  = inr (mkWorld sample_fs counts0 [] 0).
Proof.
  apply (proj1 (run_without_source_is_empty id no_mime march_7 never_refused
                  (mkConfig "/nowhere" "/data/archive" [] ∅ ∅) false sample_fs 0)
           (Path_of "/nowhere") (Path_of "/data/archive")).
  - reflexivity.
  - reflexivity.
  - vm_compute. reflexivity.
Defined.

Lemma pretty_print_plan_stops_at_first_error_witness :
  ∃ lines,
    pretty_print_plan
      (mkWorld ∅ (incr_errors counts0)
         [mkAction "error" None (OStr "/dl/inv.txt") (OStr "denied")] 0) false
    = (lines, Some (NameError "name 'a' is not defined")) ∧
    length lines = 8 + length (@nil action).
Proof.
  apply (proj2 (pretty_print_plan_stops_at_first_error
                  (mkWorld ∅ (incr_errors counts0)
                     [mkAction "error" None (OStr "/dl/inv.txt") (OStr "denied")] 0) false)
           [] (mkAction "error" None (OStr "/dl/inv.txt") (OStr "denied")) []).
  - reflexivity.
  - constructor.
  - reflexivity.
Defined.

Lemma validation_returns_iff_all_resolve_witness :
  ∃ msg, (validate_config_paths id sample_fs raw_no_target).2
         = Failed (Uncaught (ValueError msg)).
Proof.
  apply (proj2 (proj2 (validation_returns_iff_all_resolve id sample_fs raw_no_target))).
  constructor. reflexivity.
Defined.

Lemma main_never_exits_with_4_witness :
  outcome_of (main id no_mime march_7 (λ _ _, Some "denied") (inr raw_sample) false sample_fs 0)
  = Failed (NameError "name 'a' is not defined").
Proof.
  eapply (proj2 (main_never_exits_with_4 id no_mime march_7 (λ _ _, Some "denied")
                   (inr raw_sample) false sample_fs 0)).
  - reflexivity.
  - vm_compute. reflexivity.
  - vm_compute. reflexivity.
  - vm_compute. lia.
Defined.


(** ** Where a destination lies *)

Lemma join_component d s : is_component s → d // s = mkPath (rooted d) (parts d ++ [s]).
Proof.
  intros (Hf & Hne & Hnd). unfold joinpath. by rewrite Path_of_component.
Qed.

Lemma parent_join d s : is_component s → parent (d // s) = d.
Proof.
  intros H. rewrite join_component by done. unfold parent. simpl.
  rewrite removelast_last. by destruct d.
Qed.

(** The namer's answer for the name of a directory entry lies directly
    inside the folder it was asked about, under that name or under a name
    of the form [stem (n)suffix]. *)
Theorem destination_is_inside_its_folder
    (f : filesystem) (destination_dir : Path) (filename : string) :
  is_component filename →
  let destination := make_collision_safe_target f destination_dir filename in
  parent destination = destination_dir
  ∧ (name destination = filename
     ∨ ∃ n, 1 ≤ n ∧
            name destination
            = stem (Path_of filename) +:+ " (" +:+ pretty n +:+ ")" +:+ suffix (Path_of filename)).
Proof.
  intros Hc. simpl. unfold make_collision_safe_target.
  destruct (path_exists f (destination_dir // filename)); simpl.
  - destruct (probe_least_free f destination_dir filename) as (n & Hn & -> & _).
    rewrite candidate_parts. unfold parent, name. simpl.
    rewrite removelast_last, last_last. split; [by destruct destination_dir|].
    right. by exists n.
  - split; [by apply parent_join|]. left.
    rewrite join_component by done. unfold name. simpl. by rewrite last_last.
Qed.

Lemma namer_parent f destination_dir filename :
  is_component filename →
  parent (make_collision_safe_target f destination_dir filename) = destination_dir.
Proof.
  intros Hc. unfold make_collision_safe_target.
  destruct (path_exists f (destination_dir // filename)); simpl.
  - destruct (probe_least_free f destination_dir filename) as (n & Hn & -> & _).
    rewrite candidate_parts. unfold parent. simpl.
    rewrite removelast_last. by destruct destination_dir.
  - by apply parent_join.
Qed.

Section Refusals.

Variable expandvars_expanduser : string → string.
Variable detect_mime : Path → string.
Variable date_today : nat → date.
Variable move_refused : Path → Path → option string.

#[local] Abbreviation expand_path := (expand_path expandvars_expanduser).
#[local] Abbreviation process_entry :=
  (process_entry expandvars_expanduser detect_mime date_today move_refused).
#[local] Abbreviation category_of := (category_of detect_mime).
#[local] Abbreviation matched_rule := (matched_rule detect_mime).

Lemma refusal_round
    (archive_base : Path) (keyword_map : list (string * rule))
    (extension_map mime_map : gmap string string)
    (file : Path) (w : world) (folder : Path) :
  is_component (name file) →
  match category_of keyword_map extension_map mime_map file with
  | Archive => folder = archive_base // isoformat (date_today (clock w))
  | _ => expand_path (matched_rule keyword_map extension_map mime_map file).2 = inr folder
  end →
  path_exists (fs w) folder = false →
  Str.startswith (str folder) (str archive_base) = false →
  let w' := process_entry archive_base keyword_map extension_map mime_map false file w in
  fs w' = fs w
  ∧ counts w'
    = incr_errors (tally_of (category_of keyword_map extension_map mime_map file) (counts w))
  ∧ actions w'
    = actions w ++
        [mkAction "error" None (OStr (str file))
           (OStr ("Destination parent does not exist for non-archive target: "
                    +:+ str folder))].
Proof.
  intros Hname Hfolder Hmissing Hprefix. simpl.
  pose proof (classify_run expandvars_expanduser detect_mime date_today archive_base
                keyword_map extension_map mime_map file w) as Hc.
  unfold Engine.process_entry, Engine.process_file, bind.
  assert (∀ (w1 : world) stage key,
            fs w1 = fs w →
            Engine.execute_or_plan move_refused archive_base false
              (mkPlan stage key file (make_collision_safe_target (fs w) folder (name file))) w1
            = (w1, inl (RuntimeError ("Destination parent does not exist for non-archive target: "
                                        +:+ str folder)))) as Hexec.
  { intros w1 stage key Hfs. unfold Engine.execute_or_plan, bind, gets. simpl.
    rewrite namer_parent by done. by rewrite Hfs, Hmissing, Hprefix. }
  destruct (category_of keyword_map extension_map mime_map file).
  4: { subst folder. rewrite Hc, Hexec by done. done. }
  all: rewrite Hfolder in Hc; rewrite Hc, Hexec by done; done.
Qed.

(** An executing round whose destination folder is missing, and whose
    folder's text does not begin with the text of the archive root, moves
    nothing: the file system stays as it is, the file's category has been
    tallied and an error is tallied besides, and the recorded decision is
    the [RuntimeError] naming the folder.  The folder is the expanded target
    of the matched rule, or the dated archive folder itself. *)
Theorem missing_folder_is_refused
    (archive_base : Path) (keyword_map : list (string * rule))
    (extension_map mime_map : gmap string string)
    (file : Path) (w : world) (folder : Path) :
  is_component (name file) →
  match category_of keyword_map extension_map mime_map file with
  | Archive => folder = archive_base // isoformat (date_today (clock w))
  | _ => expand_path (matched_rule keyword_map extension_map mime_map file).2 = inr folder
  end →
  path_exists (fs w) folder = false →
  Str.startswith (str folder) (str archive_base) = false →
  let w' := process_entry archive_base keyword_map extension_map mime_map false file w in
  fs w' = fs w
  ∧ counts w'
    = incr_errors (tally_of (category_of keyword_map extension_map mime_map file) (counts w))
  ∧ actions w'
    = actions w ++
        [mkAction "error" None (OStr (str file))
           (OStr ("Destination parent does not exist for non-archive target: "
                    +:+ str folder))].
Proof. apply refusal_round. Qed.

Lemma digits_free c k : c ≠ "0"%char → Str.free_of c (String.concat "" (replicate k "0")) = true.
Proof.
  intros Hc. induction k as [|k IH]; [done|]. simpl.
  destruct (replicate k "0") as [|z zs] eqn:E.
  - simpl. by rewrite bool_decide_eq_false_2.
  - change ("0" ++ "" ++ String.concat "" (z :: zs))%string
      with (String "0" (String.concat "" (z :: zs))).
    simpl in *. rewrite IH. by rewrite bool_decide_eq_false_2.
Qed.

Lemma pretty_N_go_free_of c x s :
  (∀ y, pretty_N_char y ≠ c) →
  Str.free_of c s = true → Str.free_of c (pretty_N_go x s) = true.
Proof.
  intros Hc. revert s. induction (N.lt_wf_0 x) as [x _ IH]; intros s Hs.
  assert (x = 0 ∨ 0 < x)%N as [->|?] by lia; [by rewrite pretty_N_go_0|].
  rewrite pretty_N_go_step by done. apply IH; [by apply N.div_lt|].
  simpl. rewrite Hs. by rewrite bool_decide_eq_false_2.
Qed.

Lemma zero_pad_free c width n :
  (∀ y, pretty_N_char y ≠ c) → Str.free_of c (Str.zero_pad width n) = true.
Proof.
  intros Hc. pose proof (Hc 0%N) as H0. simpl in H0.
  unfold Str.zero_pad. rewrite free_of_app, digits_free by congruence.
  unfold pretty, pretty_nat, pretty, pretty_N. case_decide.
  - simpl. by rewrite bool_decide_eq_false_2.
  - by apply pretty_N_go_free_of.
Qed.

Lemma isoformat_free c d :
  (∀ y, pretty_N_char y ≠ c) → c ≠ "-"%char → Str.free_of c (isoformat d) = true.
Proof.
  intros Hc Hdash. unfold isoformat.
  rewrite !free_of_app, !zero_pad_free by done. simpl.
  by rewrite bool_decide_eq_false_2.
Qed.

Lemma isoformat_component d : is_component (isoformat d).
Proof.
  split; [|split].
  - apply isoformat_free; [|done]. intros y. unfold pretty_N_char. by repeat case_match.
  - intros H%(f_equal String.length). unfold isoformat in H. rewrite !length_app in H.
    simpl in H. lia.
  - intros H%(f_equal String.length). unfold isoformat in H. rewrite !length_app in H.
    simpl in H. lia.
Qed.

Lemma free_not_startswith c s : Str.free_of c s = true → Str.startswith s (String c "") = false.
Proof.
  destruct s as [|a s]; [done|]. simpl.
  intros [Ha _]%andb_true_iff. apply negb_true_iff in Ha. by rewrite Ha.
Qed.

(** With the working directory as archive root (an [archive_base] of ["."]
    or [""]) the dated folder is never created: its text is the bare date,
    which does not begin with the root's text ["."].  On a day whose folder
    is not there yet, an executing round for a file that matches no rule
    moves nothing and records the [RuntimeError] meant for non-archive
    targets. *)
Theorem archive_in_working_directory_is_refused
    (archive_base : Path) (keyword_map : list (string * rule))
    (extension_map mime_map : gmap string string) (file : Path) (w : world) :
  rooted archive_base = false →
  parts archive_base = [] →
  is_component (name file) →
  category_of keyword_map extension_map mime_map file = Archive →
  fs w !! mkPath false [isoformat (date_today (clock w))] = None →
  let w' := process_entry archive_base keyword_map extension_map mime_map false file w in
  fs w' = fs w
  ∧ counts w' = incr_errors (incr_archived (counts w))
  ∧ actions w'
    = actions w ++
        [mkAction "error" None (OStr (str file))
           (OStr ("Destination parent does not exist for non-archive target: "
                    +:+ isoformat (date_today (clock w))))].
Proof.
  intros Hroot Hparts Hname Hcat Hnone.
  pose proof (isoformat_component (date_today (clock w))) as Hiso.
  assert (archive_base // isoformat (date_today (clock w))
          = mkPath false [isoformat (date_today (clock w))]) as Hfolder.
  { rewrite join_component by done. by rewrite Hroot, Hparts. }
  pose proof (refusal_round archive_base keyword_map extension_map mime_map file w
                (mkPath false [isoformat (date_today (clock w))])) as H.
  rewrite Hcat in H. simpl in H.
  assert (str archive_base = ".") as Hstr by (unfold str; by rewrite Hparts, Hroot).
  apply H; [done|done| |].
  - unfold path_exists. simpl. rewrite Hnone. done.
  - rewrite Hstr.
    change (str (mkPath false [isoformat (date_today (clock w))]))
      with (isoformat (date_today (clock w))).
    apply free_not_startswith, isoformat_free; [|done].
    intros y. unfold pretty_N_char. by repeat case_match.
Qed.

End Refusals.

Lemma destination_is_inside_its_folder_witness :
  let destination := make_collision_safe_target reports_fs (Path_of "/dir") "report.txt" in
  parent destination = Path_of "/dir"
  ∧ (name destination = "report.txt"
     ∨ ∃ n, 1 ≤ n ∧
            name destination
            = stem (Path_of "report.txt") +:+ " (" +:+ pretty n +:+ ")"
                +:+ suffix (Path_of "report.txt")).
Proof.
  apply (destination_is_inside_its_folder reports_fs (Path_of "/dir") "report.txt").
  split; [reflexivity|]. split; discriminate.
Defined.

Lemma missing_folder_is_refused_witness :
  let w' := process_entry id no_mime march_7 never_refused (Path_of "/data/archive")
              [("inv", mkRule (Some "/missing"))] ∅ ∅ false (Path_of "/dl/inv.txt")
              sample_world in
  fs w' = fs sample_world
  ∧ counts w'
    = incr_errors (tally_of (category_of no_mime [("inv", mkRule (Some "/missing"))] ∅ ∅
                               (Path_of "/dl/inv.txt")) (counts sample_world))
  ∧ actions w'
    = actions sample_world ++
        [mkAction "error" None (OStr (str (Path_of "/dl/inv.txt")))
           (OStr ("Destination parent does not exist for non-archive target: "
                    +:+ str (Path_of "/missing")))].
Proof.
  apply (missing_folder_is_refused id no_mime march_7 never_refused (Path_of "/data/archive")
           [("inv", mkRule (Some "/missing"))] ∅ ∅ (Path_of "/dl/inv.txt") sample_world
           (Path_of "/missing")).
  - split; [reflexivity|]. split; discriminate.
  - reflexivity.
  - vm_compute. reflexivity.
  - vm_compute. reflexivity.
Defined.

Lemma archive_in_working_directory_is_refused_witness :
  let w' := process_entry id no_mime march_7 never_refused (Path_of ".") [] ∅ ∅ false
              (Path_of "/dl/inv.txt") sample_world in
  fs w' = fs sample_world
  ∧ counts w' = incr_errors (incr_archived (counts sample_world))
  ∧ actions w'
    = actions sample_world ++
        [mkAction "error" None (OStr (str (Path_of "/dl/inv.txt")))
           (OStr ("Destination parent does not exist for non-archive target: "
                    +:+ isoformat (march_7 (clock sample_world))))].
Proof.
  apply (archive_in_working_directory_is_refused id no_mime march_7 never_refused (Path_of ".")
           [] ∅ ∅ (Path_of "/dl/inv.txt") sample_world).
  - reflexivity.
  - reflexivity.
  - split; [reflexivity|]. split; discriminate.
  - reflexivity.
  - vm_compute. reflexivity.
Defined.
